(** * SoulXSkill: the real-time audio core of [src/App.tsx]

    A shallow embedding of the voice client's session logic: the capture
    callback, the [onmessage] dispatcher (transcription buffers, turn
    completion, playback scheduling, interruption), the teardown
    [disconnect], and the PCM16 codec its audio helpers implement.

    Conventions.
    - JavaScript numbers that hold times (the audio context's
      [currentTime], [nextStartTimeRef], buffer durations) are rationals
      [Q]; every finite double is one.
    - JavaScript strings are sequences of UTF-16 code units.
    - React state ([useState]) and refs ([useRef]) are fields of one
      record; a [setX] call is the field update that the next render
      shows.  A closure that captured a state variable keeps the value of
      the render that created it: this is recorded explicitly.
    - Calls into the Web Audio graph and the remote session are recorded
      in logs carried by the state.
    - A handler runs to completion before the next event is handled: an
      [await] inside it resumes before anything else touches the refs. *)

From Stdlib Require Import List Bool Arith ZArith NArith QArith Qround Qminmax Qabs Lia Lqa.
From Stdlib Require Strings.Byte.
Import ListNotations.

Local Open Scope Q_scope.

(** ** JavaScript strings *)

Module JsString.

Definition code_unit := N.
Definition jsstring := list code_unit.

(** ECMAScript [WhiteSpace] and [LineTerminator] code points, the ones
    [String.prototype.trim] strips.  All of them are single code units. *)
Definition is_white_space (c : code_unit) : bool :=
  existsb (N.eqb c)
    [ 9; 10; 11; 12; 13; 32; 160; 5760;
      8192; 8193; 8194; 8195; 8196; 8197; 8198; 8199; 8200; 8201; 8202;
      8232; 8233; 8239; 8287; 12288; 65279 ]%N.

Fixpoint trimStart (s : jsstring) : jsstring :=
  match s with
  | [] => []
  | c :: r => if is_white_space c then trimStart r else s
  end.

Definition trimEnd (s : jsstring) : jsstring := rev (trimStart (rev s)).

Definition trim (s : jsstring) : jsstring := trimEnd (trimStart s).

(** Truthiness of a string: every string but the empty one. *)
Definition truthy (s : jsstring) : bool :=
  match s with [] => false | _ :: _ => true end.

(** A string has visible text when some code unit is not white space. *)
Definition has_text (s : jsstring) : bool :=
  existsb (fun c => negb (is_white_space c)) s.

End JsString.
Export JsString.

(** ** PCM16 codec

    [createPCM16Blob], [decode] and [decodeAudioData] are imported from
    [./services/audioUtils], which is not among the sources. *)

Module AudioCodec.

Definition byte := Z.

Definition clamp (x : Q) : Q := Qmax (-1) (Qmin 1 x).

(** Rounding to the nearest integer, ties away from zero. *)
Definition round_half_away (x : Q) : Z :=
  if Qle_bool 0 x then Qfloor (x + (1 # 2)) else (- Qfloor (- x + (1 # 2)))%Z.

(** Modelled from the spec: the quantizer of [encode]
    ([services/audioUtils.createPCM16Blob] is missing).  A sample is
    clamped to [-1,1], scaled by the step [1/32768] that [decode]
    inverts, rounded half away from zero and kept in the signed 16-bit
    range. *)
Definition quantize (x : Q) : Z :=
  Z.max (-32768) (Z.min 32767 (round_half_away (clamp x * 32768))).

(** Two's-complement little-endian serialization of one 16-bit sample. *)
Definition int16_bytes (v : Z) : list byte :=
  let u := (v mod 65536)%Z in [ (u mod 256)%Z; (u / 256)%Z ].

Definition int16_of_bytes (lo hi : byte) : Z :=
  let u := (lo + 256 * hi)%Z in
  if (u <? 32768)%Z then u else (u - 65536)%Z.

(** Modelled from the spec: [encode] ([createPCM16Blob] is missing):
    each sample quantized, then serialized little-endian; the empty
    buffer gives the empty frame. *)
Definition encode (samples : list Q) : list byte :=
  flat_map (fun x => int16_bytes (quantize x)) samples.

Definition dequantize (v : Z) : Q := Qmake v 32768.

(** Modelled from the spec: [decode] ([decodeAudioData] is missing):
    inverse quantization [int16 / 32768.0]; a trailing partial sample is
    truncated. *)
Fixpoint decode (frame : list byte) : list Q :=
  match frame with
  | lo :: hi :: rest => dequantize (int16_of_bytes lo hi) :: decode rest
  | _ => []
  end.

(** Number of sample frames of a mono 16-bit frame of [n] bytes. *)
Definition frame_count (n : N) : N := (n / 2)%N.

End AudioCodec.

(** ** The component's state and the messages it receives *)

Module App.
Import AudioCodec.

Inductive ConnectionState := disconnected | connecting | connected.

(** [AudioMessage] of [types.ts]: [{ role: 'user' | 'model'; text?: string }]. *)
Inductive Role := user | model.

Record AudioMessage := mkAudioMessage { role : Role; text : option jsstring }.

(** The two texts [setError] is called with. *)
Inductive ErrorText := ConnectionError | FailedToConnect.

(** An [AudioBufferSourceNode], named by the order of its creation. *)
Definition SourceId := nat.

(** Calls made on the source nodes of the output graph, oldest first:
    [source.start(when)] with the duration of the node's buffer, and
    [source.stop()]. *)
Inductive AudioOp :=
| Start (source : SourceId) (when : Q) (duration : Q)
| Stop (source : SourceId).

(** A [LiveServerMessage], restricted to the fields [onmessage] reads.
    A transcription is given by its [text]; the base64 text of
    [inlineData.data] by the bytes it stands for (the empty text by no
    bytes). *)
Record Part := mkPart { inlineData : option (list byte) }.

Record ServerContent := mkServerContent {
  outputTranscription : option jsstring;
  inputTranscription : option jsstring;
  turnComplete : bool;
  modelTurn : option (list Part);
  interrupted : bool
}.

Record LiveServerMessage := mkMessage { serverContent : option ServerContent }.

Record State := mkState {
  (* React state: [useState] *)
  connectionState : ConnectionState;
  isMicMuted : bool;
  messages : list AudioMessage;
  streamingUserText : jsstring;
  streamingModelText : jsstring;
  error : option ErrorText;
  (* refs: [useRef]; a [bool] tells whether the ref is non-null *)
  audioContextRef : bool;
  inputContextRef : bool;
  sessionPromiseRef : bool;
  nextStartTimeRef : Q;
  sourcesRef : list SourceId;
  currentInputTranscriptionRef : jsstring;
  currentOutputTranscriptionRef : jsstring;
  streamRef : bool;
  (* the world outside the component *)
  sessionCallbacks : option bool;
  scriptProcessor : option bool;
  audioLog : list AudioOp;
  sentFrames : list (list byte);
  nextSourceId : SourceId
}.

Definition set_connectionState (v : ConnectionState) (s : State) : State :=
  {| connectionState := v; isMicMuted := isMicMuted s; messages := messages s;
     streamingUserText := streamingUserText s; streamingModelText := streamingModelText s;
     error := error s; audioContextRef := audioContextRef s; inputContextRef := inputContextRef s;
     sessionPromiseRef := sessionPromiseRef s; nextStartTimeRef := nextStartTimeRef s;
     sourcesRef := sourcesRef s; currentInputTranscriptionRef := currentInputTranscriptionRef s;
     currentOutputTranscriptionRef := currentOutputTranscriptionRef s; streamRef := streamRef s;
     sessionCallbacks := sessionCallbacks s; scriptProcessor := scriptProcessor s;
     audioLog := audioLog s; sentFrames := sentFrames s; nextSourceId := nextSourceId s |}.

Definition set_isMicMuted (v : bool) (s : State) : State :=
  {| connectionState := connectionState s; isMicMuted := v; messages := messages s;
     streamingUserText := streamingUserText s; streamingModelText := streamingModelText s;
     error := error s; audioContextRef := audioContextRef s; inputContextRef := inputContextRef s;
     sessionPromiseRef := sessionPromiseRef s; nextStartTimeRef := nextStartTimeRef s;
     sourcesRef := sourcesRef s; currentInputTranscriptionRef := currentInputTranscriptionRef s;
     currentOutputTranscriptionRef := currentOutputTranscriptionRef s; streamRef := streamRef s;
     sessionCallbacks := sessionCallbacks s; scriptProcessor := scriptProcessor s;
     audioLog := audioLog s; sentFrames := sentFrames s; nextSourceId := nextSourceId s |}.

Definition set_messages (v : list AudioMessage) (s : State) : State :=
  {| connectionState := connectionState s; isMicMuted := isMicMuted s; messages := v;
     streamingUserText := streamingUserText s; streamingModelText := streamingModelText s;
     error := error s; audioContextRef := audioContextRef s; inputContextRef := inputContextRef s;
     sessionPromiseRef := sessionPromiseRef s; nextStartTimeRef := nextStartTimeRef s;
     sourcesRef := sourcesRef s; currentInputTranscriptionRef := currentInputTranscriptionRef s;
     currentOutputTranscriptionRef := currentOutputTranscriptionRef s; streamRef := streamRef s;
     sessionCallbacks := sessionCallbacks s; scriptProcessor := scriptProcessor s;
     audioLog := audioLog s; sentFrames := sentFrames s; nextSourceId := nextSourceId s |}.

Definition set_streamingUserText (v : jsstring) (s : State) : State :=
  {| connectionState := connectionState s; isMicMuted := isMicMuted s; messages := messages s;
     streamingUserText := v; streamingModelText := streamingModelText s; error := error s;
     audioContextRef := audioContextRef s; inputContextRef := inputContextRef s;
     sessionPromiseRef := sessionPromiseRef s; nextStartTimeRef := nextStartTimeRef s;
     sourcesRef := sourcesRef s; currentInputTranscriptionRef := currentInputTranscriptionRef s;
     currentOutputTranscriptionRef := currentOutputTranscriptionRef s; streamRef := streamRef s;
     sessionCallbacks := sessionCallbacks s; scriptProcessor := scriptProcessor s;
     audioLog := audioLog s; sentFrames := sentFrames s; nextSourceId := nextSourceId s |}.

Definition set_streamingModelText (v : jsstring) (s : State) : State :=
  {| connectionState := connectionState s; isMicMuted := isMicMuted s; messages := messages s;
     streamingUserText := streamingUserText s; streamingModelText := v; error := error s;
     audioContextRef := audioContextRef s; inputContextRef := inputContextRef s;
     sessionPromiseRef := sessionPromiseRef s; nextStartTimeRef := nextStartTimeRef s;
     sourcesRef := sourcesRef s; currentInputTranscriptionRef := currentInputTranscriptionRef s;
     currentOutputTranscriptionRef := currentOutputTranscriptionRef s; streamRef := streamRef s;
     sessionCallbacks := sessionCallbacks s; scriptProcessor := scriptProcessor s;
     audioLog := audioLog s; sentFrames := sentFrames s; nextSourceId := nextSourceId s |}.

Definition set_error (v : option ErrorText) (s : State) : State :=
  {| connectionState := connectionState s; isMicMuted := isMicMuted s; messages := messages s;
     streamingUserText := streamingUserText s; streamingModelText := streamingModelText s;
     error := v; audioContextRef := audioContextRef s; inputContextRef := inputContextRef s;
     sessionPromiseRef := sessionPromiseRef s; nextStartTimeRef := nextStartTimeRef s;
     sourcesRef := sourcesRef s; currentInputTranscriptionRef := currentInputTranscriptionRef s;
     currentOutputTranscriptionRef := currentOutputTranscriptionRef s; streamRef := streamRef s;
     sessionCallbacks := sessionCallbacks s; scriptProcessor := scriptProcessor s;
     audioLog := audioLog s; sentFrames := sentFrames s; nextSourceId := nextSourceId s |}.

Definition set_audioContextRef (v : bool) (s : State) : State :=
  {| connectionState := connectionState s; isMicMuted := isMicMuted s; messages := messages s;
     streamingUserText := streamingUserText s; streamingModelText := streamingModelText s;
     error := error s; audioContextRef := v; inputContextRef := inputContextRef s;
     sessionPromiseRef := sessionPromiseRef s; nextStartTimeRef := nextStartTimeRef s;
     sourcesRef := sourcesRef s; currentInputTranscriptionRef := currentInputTranscriptionRef s;
     currentOutputTranscriptionRef := currentOutputTranscriptionRef s; streamRef := streamRef s;
     sessionCallbacks := sessionCallbacks s; scriptProcessor := scriptProcessor s;
     audioLog := audioLog s; sentFrames := sentFrames s; nextSourceId := nextSourceId s |}.

Definition set_inputContextRef (v : bool) (s : State) : State :=
  {| connectionState := connectionState s; isMicMuted := isMicMuted s; messages := messages s;
     streamingUserText := streamingUserText s; streamingModelText := streamingModelText s;
     error := error s; audioContextRef := audioContextRef s; inputContextRef := v;
     sessionPromiseRef := sessionPromiseRef s; nextStartTimeRef := nextStartTimeRef s;
     sourcesRef := sourcesRef s; currentInputTranscriptionRef := currentInputTranscriptionRef s;
     currentOutputTranscriptionRef := currentOutputTranscriptionRef s; streamRef := streamRef s;
     sessionCallbacks := sessionCallbacks s; scriptProcessor := scriptProcessor s;
     audioLog := audioLog s; sentFrames := sentFrames s; nextSourceId := nextSourceId s |}.

Definition set_sessionPromiseRef (v : bool) (s : State) : State :=
  {| connectionState := connectionState s; isMicMuted := isMicMuted s; messages := messages s;
     streamingUserText := streamingUserText s; streamingModelText := streamingModelText s;
     error := error s; audioContextRef := audioContextRef s; inputContextRef := inputContextRef s;
     sessionPromiseRef := v; nextStartTimeRef := nextStartTimeRef s; sourcesRef := sourcesRef s;
     currentInputTranscriptionRef := currentInputTranscriptionRef s;
     currentOutputTranscriptionRef := currentOutputTranscriptionRef s; streamRef := streamRef s;
     sessionCallbacks := sessionCallbacks s; scriptProcessor := scriptProcessor s;
     audioLog := audioLog s; sentFrames := sentFrames s; nextSourceId := nextSourceId s |}.

Definition set_nextStartTimeRef (v : Q) (s : State) : State :=
  {| connectionState := connectionState s; isMicMuted := isMicMuted s; messages := messages s;
     streamingUserText := streamingUserText s; streamingModelText := streamingModelText s;
     error := error s; audioContextRef := audioContextRef s; inputContextRef := inputContextRef s;
     sessionPromiseRef := sessionPromiseRef s; nextStartTimeRef := v; sourcesRef := sourcesRef s;
     currentInputTranscriptionRef := currentInputTranscriptionRef s;
     currentOutputTranscriptionRef := currentOutputTranscriptionRef s; streamRef := streamRef s;
     sessionCallbacks := sessionCallbacks s; scriptProcessor := scriptProcessor s;
     audioLog := audioLog s; sentFrames := sentFrames s; nextSourceId := nextSourceId s |}.

Definition set_sourcesRef (v : list SourceId) (s : State) : State :=
  {| connectionState := connectionState s; isMicMuted := isMicMuted s; messages := messages s;
     streamingUserText := streamingUserText s; streamingModelText := streamingModelText s;
     error := error s; audioContextRef := audioContextRef s; inputContextRef := inputContextRef s;
     sessionPromiseRef := sessionPromiseRef s; nextStartTimeRef := nextStartTimeRef s;
     sourcesRef := v; currentInputTranscriptionRef := currentInputTranscriptionRef s;
     currentOutputTranscriptionRef := currentOutputTranscriptionRef s; streamRef := streamRef s;
     sessionCallbacks := sessionCallbacks s; scriptProcessor := scriptProcessor s;
     audioLog := audioLog s; sentFrames := sentFrames s; nextSourceId := nextSourceId s |}.

Definition set_currentInputTranscriptionRef (v : jsstring) (s : State) : State :=
  {| connectionState := connectionState s; isMicMuted := isMicMuted s; messages := messages s;
     streamingUserText := streamingUserText s; streamingModelText := streamingModelText s;
     error := error s; audioContextRef := audioContextRef s; inputContextRef := inputContextRef s;
     sessionPromiseRef := sessionPromiseRef s; nextStartTimeRef := nextStartTimeRef s;
     sourcesRef := sourcesRef s; currentInputTranscriptionRef := v;
     currentOutputTranscriptionRef := currentOutputTranscriptionRef s; streamRef := streamRef s;
     sessionCallbacks := sessionCallbacks s; scriptProcessor := scriptProcessor s;
     audioLog := audioLog s; sentFrames := sentFrames s; nextSourceId := nextSourceId s |}.

Definition set_currentOutputTranscriptionRef (v : jsstring) (s : State) : State :=
  {| connectionState := connectionState s; isMicMuted := isMicMuted s; messages := messages s;
     streamingUserText := streamingUserText s; streamingModelText := streamingModelText s;
     error := error s; audioContextRef := audioContextRef s; inputContextRef := inputContextRef s;
     sessionPromiseRef := sessionPromiseRef s; nextStartTimeRef := nextStartTimeRef s;
     sourcesRef := sourcesRef s; currentInputTranscriptionRef := currentInputTranscriptionRef s;
     currentOutputTranscriptionRef := v; streamRef := streamRef s;
     sessionCallbacks := sessionCallbacks s; scriptProcessor := scriptProcessor s;
     audioLog := audioLog s; sentFrames := sentFrames s; nextSourceId := nextSourceId s |}.

Definition set_streamRef (v : bool) (s : State) : State :=
  {| connectionState := connectionState s; isMicMuted := isMicMuted s; messages := messages s;
     streamingUserText := streamingUserText s; streamingModelText := streamingModelText s;
     error := error s; audioContextRef := audioContextRef s; inputContextRef := inputContextRef s;
     sessionPromiseRef := sessionPromiseRef s; nextStartTimeRef := nextStartTimeRef s;
     sourcesRef := sourcesRef s; currentInputTranscriptionRef := currentInputTranscriptionRef s;
     currentOutputTranscriptionRef := currentOutputTranscriptionRef s; streamRef := v;
     sessionCallbacks := sessionCallbacks s; scriptProcessor := scriptProcessor s;
     audioLog := audioLog s; sentFrames := sentFrames s; nextSourceId := nextSourceId s |}.

Definition set_sessionCallbacks (v : option bool) (s : State) : State :=
  {| connectionState := connectionState s; isMicMuted := isMicMuted s; messages := messages s;
     streamingUserText := streamingUserText s; streamingModelText := streamingModelText s;
     error := error s; audioContextRef := audioContextRef s; inputContextRef := inputContextRef s;
     sessionPromiseRef := sessionPromiseRef s; nextStartTimeRef := nextStartTimeRef s;
     sourcesRef := sourcesRef s; currentInputTranscriptionRef := currentInputTranscriptionRef s;
     currentOutputTranscriptionRef := currentOutputTranscriptionRef s; streamRef := streamRef s;
     sessionCallbacks := v; scriptProcessor := scriptProcessor s; audioLog := audioLog s;
     sentFrames := sentFrames s; nextSourceId := nextSourceId s |}.

Definition set_scriptProcessor (v : option bool) (s : State) : State :=
  {| connectionState := connectionState s; isMicMuted := isMicMuted s; messages := messages s;
     streamingUserText := streamingUserText s; streamingModelText := streamingModelText s;
     error := error s; audioContextRef := audioContextRef s; inputContextRef := inputContextRef s;
     sessionPromiseRef := sessionPromiseRef s; nextStartTimeRef := nextStartTimeRef s;
     sourcesRef := sourcesRef s; currentInputTranscriptionRef := currentInputTranscriptionRef s;
     currentOutputTranscriptionRef := currentOutputTranscriptionRef s; streamRef := streamRef s;
     sessionCallbacks := sessionCallbacks s; scriptProcessor := v; audioLog := audioLog s;
     sentFrames := sentFrames s; nextSourceId := nextSourceId s |}.

Definition set_audioLog (v : list AudioOp) (s : State) : State :=
  {| connectionState := connectionState s; isMicMuted := isMicMuted s; messages := messages s;
     streamingUserText := streamingUserText s; streamingModelText := streamingModelText s;
     error := error s; audioContextRef := audioContextRef s; inputContextRef := inputContextRef s;
     sessionPromiseRef := sessionPromiseRef s; nextStartTimeRef := nextStartTimeRef s;
     sourcesRef := sourcesRef s; currentInputTranscriptionRef := currentInputTranscriptionRef s;
     currentOutputTranscriptionRef := currentOutputTranscriptionRef s; streamRef := streamRef s;
     sessionCallbacks := sessionCallbacks s; scriptProcessor := scriptProcessor s; audioLog := v;
     sentFrames := sentFrames s; nextSourceId := nextSourceId s |}.

Definition set_sentFrames (v : list (list byte)) (s : State) : State :=
  {| connectionState := connectionState s; isMicMuted := isMicMuted s; messages := messages s;
     streamingUserText := streamingUserText s; streamingModelText := streamingModelText s;
     error := error s; audioContextRef := audioContextRef s; inputContextRef := inputContextRef s;
     sessionPromiseRef := sessionPromiseRef s; nextStartTimeRef := nextStartTimeRef s;
     sourcesRef := sourcesRef s; currentInputTranscriptionRef := currentInputTranscriptionRef s;
     currentOutputTranscriptionRef := currentOutputTranscriptionRef s; streamRef := streamRef s;
     sessionCallbacks := sessionCallbacks s; scriptProcessor := scriptProcessor s;
     audioLog := audioLog s; sentFrames := v; nextSourceId := nextSourceId s |}.

Definition set_nextSourceId (v : SourceId) (s : State) : State :=
  {| connectionState := connectionState s; isMicMuted := isMicMuted s; messages := messages s;
     streamingUserText := streamingUserText s; streamingModelText := streamingModelText s;
     error := error s; audioContextRef := audioContextRef s; inputContextRef := inputContextRef s;
     sessionPromiseRef := sessionPromiseRef s; nextStartTimeRef := nextStartTimeRef s;
     sourcesRef := sourcesRef s; currentInputTranscriptionRef := currentInputTranscriptionRef s;
     currentOutputTranscriptionRef := currentOutputTranscriptionRef s; streamRef := streamRef s;
     sessionCallbacks := sessionCallbacks s; scriptProcessor := scriptProcessor s;
     audioLog := audioLog s; sentFrames := sentFrames s; nextSourceId := v |}.

(** *** The capture side *)

(** [connect], up to the point where the session is requested.
    [getUserMedia] tells whether the microphone was acquired; when it
    was not, the [catch] branch runs.  The callbacks handed to
    [ai.live.connect] are closures of this call: they see the
    [isMicMuted] of the render that created [connect].
    [nextStartTimeRef] is not touched.  (The button that calls
    [connect] is rendered only once a persona is chosen, so the guard
    on [currentPersona] always passes.) *)
Definition connect (getUserMedia : bool) (s : State) : State :=
  let s := set_error None s in
  let s := set_connectionState connecting s in
  let s := set_audioContextRef true s in
  let s := set_inputContextRef true s in
  if getUserMedia then
    let s := set_streamRef true s in
    let s := set_sessionCallbacks (Some (isMicMuted s)) s in
    set_sessionPromiseRef true s
  else
    let s := set_error (Some FailedToConnect) s in
    set_connectionState disconnected s.

(** [callbacks.onopen]: sets the state to [connected], whatever the
    refs hold, and installs [scriptProcessor.onaudioprocess], a closure
    created inside the callbacks of [connect], on the input context of
    that call.  A processor created after that context was closed
    never delivers a buffer: none is recorded then. *)
Definition onopen (s : State) : State :=
  let opened := set_connectionState connected s in
  match sessionCallbacks s with
  | Some captured => set_scriptProcessor (Some captured) opened
  | None => opened
  end.

(** [scriptProcessor.onaudioprocess]: one captured buffer.  The test
    [if (isMicMuted) return] reads the variable the closure captured. *)
Definition onaudioprocess (inputData : list Q) (s : State) : State :=
  match scriptProcessor s with
  | Some captured =>
      if captured then s
      else
        let pcmBlob := encode inputData in
        if sessionPromiseRef s
        then set_sentFrames (sentFrames s ++ [pcmBlob]) s
        else s
  | None => s
  end.

(** [toggleMute = () => setIsMicMuted(!isMicMuted)]. *)
Definition toggleMute (s : State) : State :=
  set_isMicMuted (negb (isMicMuted s)) s.

(** *** The receive side: [callbacks.onmessage] *)

(** [// Handle Transcription]: an [if] / [else if]. *)
Definition handleTranscription (sc : ServerContent) (s : State) : State :=
  match outputTranscription sc with
  | Some text =>
      let s := set_currentOutputTranscriptionRef
                 (currentOutputTranscriptionRef s ++ text) s in
      set_streamingModelText (currentOutputTranscriptionRef s) s
  | None =>
      match inputTranscription sc with
      | Some text =>
          let s := set_currentInputTranscriptionRef
                     (currentInputTranscriptionRef s ++ text) s in
          set_streamingUserText (currentInputTranscriptionRef s) s
      | None => s
      end
  end.

(** The body of [if (message.serverContent?.turnComplete)]. *)
Definition handleTurnComplete (sc : ServerContent) (s : State) : State :=
  if turnComplete sc then
    let userText := currentInputTranscriptionRef s in
    let modelText := currentOutputTranscriptionRef s in
    let s := set_streamingUserText [] s in
    let s := set_streamingModelText [] s in
    let s := set_currentInputTranscriptionRef [] s in
    let s := set_currentOutputTranscriptionRef [] s in
    if truthy (trim userText) || truthy (trim modelText) then
      let newMessages := messages s in
      let newMessages :=
        if truthy (trim userText)
        then newMessages ++ [mkAudioMessage user (Some userText)]
        else newMessages in
      let newMessages :=
        if truthy (trim modelText)
        then newMessages ++ [mkAudioMessage model (Some modelText)]
        else newMessages in
      set_messages newMessages s
    else s
  else s.

(** [message.serverContent?.modelTurn?.parts[0]?.inlineData?.data]. *)
Definition base64Audio (sc : ServerContent) : option (list byte) :=
  match modelTurn sc with
  | Some (part :: _) => inlineData part
  | _ => None
  end.

(** Modelled from the spec: the [duration] of the buffer that
    [decodeAudioData(..., 24000, 1)] returns ([services/audioUtils] is
    missing): the buffer length over the output sample rate. *)
Definition duration (audioBuffer : list Q) : Q :=
  Z.of_nat (length audioBuffer) # 24000.

(** [// Handle Audio Output].  [currentTime] is [audioCtx.currentTime].
    The second component is [false] when the handler returned early. *)
Definition handleAudio (currentTime : Q) (sc : ServerContent) (s : State)
  : State * bool :=
  match base64Audio sc with
  | Some (b :: bs) =>
      if audioContextRef s then
        let s := set_nextStartTimeRef (Qmax (nextStartTimeRef s) currentTime) s in
        let audioBuffer := decode (b :: bs) in
        let source := nextSourceId s in
        let s := set_nextSourceId (S source) s in
        let s := set_audioLog
                   (audioLog s ++ [Start source (nextStartTimeRef s) (duration audioBuffer)]) s in
        let s := set_nextStartTimeRef (nextStartTimeRef s + duration audioBuffer) s in
        let s := set_sourcesRef
                   (if existsb (Nat.eqb source) (sourcesRef s)
                    then sourcesRef s else sourcesRef s ++ [source]) s in
        (s, true)
      else (s, false)
  | _ => (s, true)
  end.

(** [// Handle Interruption]. *)
Definition handleInterrupted (sc : ServerContent) (s : State) : State :=
  if interrupted sc then
    let s := set_audioLog (audioLog s ++ map Stop (sourcesRef s)) s in
    let s := set_sourcesRef [] s in
    let s := set_nextStartTimeRef 0 s in
    let s := set_currentOutputTranscriptionRef [] s in
    set_streamingModelText [] s
  else s.

Definition onmessage (currentTime : Q) (message : LiveServerMessage) (s : State)
  : State :=
  match serverContent message with
  | None => s
  | Some sc =>
      let s := handleTranscription sc s in
      let s := handleTurnComplete sc s in
      let (s, continue) := handleAudio currentTime sc s in
      if continue then handleInterrupted sc s else s
  end.

(** [source.onended = () => sourcesRef.current.delete(source)]. *)
Definition onended (source : SourceId) (s : State) : State :=
  set_sourcesRef (filter (fun x => negb (Nat.eqb x source)) (sourcesRef s)) s.

(** *** Teardown *)

(** [disconnect], run to completion.  Closing the input context ends
    the capture callbacks, and a processor that a later [onopen] of the
    closed session would create on it is dead. *)
Definition disconnect (s : State) : State :=
  let s := if streamRef s then set_streamRef false s else s in
  let s := if sessionPromiseRef s
           then set_sessionPromiseRef false (set_sessionCallbacks None s)
           else s in
  let s := if audioContextRef s then set_audioContextRef false s else s in
  let s := if inputContextRef s
           then set_inputContextRef false (set_scriptProcessor None s)
           else s in
  let s := set_audioLog (audioLog s ++ map Stop (sourcesRef s)) s in
  let s := set_sourcesRef [] s in
  let s := set_connectionState disconnected s in
  let s := set_currentInputTranscriptionRef [] s in
  let s := set_currentOutputTranscriptionRef [] s in
  let s := set_streamingUserText [] s in
  set_streamingModelText [] s.

Definition onclose (s : State) : State := disconnect s.

Definition onerror (s : State) : State :=
  disconnect (set_error (Some ConnectionError) s).

(** *** Events and runs *)

(** The single-purpose events of the protocol, as messages. *)
Definition noContent : ServerContent :=
  mkServerContent None None false None false.

Definition transcriptFragment (speaker : Role) (fragment : jsstring)
  : LiveServerMessage :=
  mkMessage (Some
    match speaker with
    | user => mkServerContent None (Some fragment) false None false
    | model => mkServerContent (Some fragment) None false None false
    end).

Definition turnCompleteEvent : LiveServerMessage :=
  mkMessage (Some (mkServerContent None None true None false)).

Definition interruptedEvent : LiveServerMessage :=
  mkMessage (Some (mkServerContent None None false None true)).

Definition audioChunk (bytes : list byte) : LiveServerMessage :=
  mkMessage (Some
    (mkServerContent None None false (Some [mkPart (Some bytes)]) false)).

(** Messages handled one after the other, each at its own
    [currentTime]. *)
Definition run (events : list (Q * LiveServerMessage)) (s : State) : State :=
  fold_left (fun s e => onmessage (fst e) (snd e) s) events s.

(** *** What the claims observe *)

(** The segments scheduled so far: start time and duration of every
    [source.start] call, oldest first. *)
Fixpoint scheduled (log : list AudioOp) : list (Q * Q) :=
  match log with
  | [] => []
  | Start _ when d :: rest => (when, d) :: scheduled rest
  | Stop _ :: rest => scheduled rest
  end.

(** The schedule as the specification words it: every chunk starts at
    [max(OutputClock, currentRealTime)] and moves the clock to
    [startTime + duration].  A chunk is its arrival time and bytes. *)
Fixpoint schedule (clock : Q) (chunks : list (Q * list byte)) : list (Q * Q) :=
  match chunks with
  | [] => []
  | (currentTime, bytes) :: rest =>
      let startTime := Qmax clock currentTime in
      let d := duration (decode bytes) in
      (startTime, d) :: schedule (startTime + d) rest
  end.

Fixpoint clockAfter (clock : Q) (chunks : list (Q * list byte)) : Q :=
  match chunks with
  | [] => clock
  | (currentTime, bytes) :: rest =>
      clockAfter (Qmax clock currentTime + duration (decode bytes)) rest
  end.

(** Consecutive segments neither rewind nor overlap. *)
Fixpoint backToBack (segments : list (Q * Q)) : Prop :=
  match segments with
  | (t1, d1) :: ((t2, _) :: _) as rest =>
      t1 <= t2 /\ t1 + d1 <= t2 /\ backToBack rest
  | _ => True
  end.

Definition audioChunks (chunks : list (Q * list byte))
  : list (Q * LiveServerMessage) :=
  map (fun c => (fst c, audioChunk (snd c))) chunks.

(** The playback scheduler's share of the state. *)
Definition scheduler (s : State) : Q * list SourceId * list AudioOp :=
  (nextStartTimeRef s, sourcesRef s, audioLog s).

(** Fragments of one turn, in arrival order, and what one speaker said. *)
Definition fragments (now : Q) (frs : list (Role * jsstring))
  : list (Q * LiveServerMessage) :=
  map (fun f => (now, transcriptFragment (fst f) (snd f))) frs.

Definition isRole (r r' : Role) : bool :=
  match r, r' with
  | user, user | model, model => true
  | _, _ => false
  end.

Definition spoken (r : Role) (frs : list (Role * jsstring)) : jsstring :=
  concat (map snd (filter (fun f => isRole r (fst f)) frs)).

(** The Utterance [completeTurn] emits for a buffered text, as the
    specification words it: one when the text is non-empty. *)
Definition utteranceIfNonEmpty (r : Role) (buffered : jsstring)
  : list AudioMessage :=
  if truthy buffered then [mkAudioMessage r (Some buffered)] else [].

(** The Utterance the handler emits: one when the text has a code unit
    that is not white space. *)
Definition utterance (r : Role) (buffered : jsstring) : list AudioMessage :=
  if has_text buffered then [mkAudioMessage r (Some buffered)] else [].

(** Whether a message reaches the two scheduler branches of [onmessage]. *)
Definition carriesAudio (message : LiveServerMessage) : bool :=
  match serverContent message with
  | Some sc => match base64Audio sc with Some (_ :: _) => true | _ => false end
  | None => false
  end.

Definition isInterrupted (message : LiveServerMessage) : bool :=
  match serverContent message with
  | Some sc => interrupted sc
  | None => false
  end.

(** The initial state of the component. *)
Definition initial : State :=
  {| connectionState := disconnected; isMicMuted := false; messages := [];
     streamingUserText := []; streamingModelText := []; error := None;
     audioContextRef := false; inputContextRef := false;
     sessionPromiseRef := false; nextStartTimeRef := 0; sourcesRef := [];
     currentInputTranscriptionRef := []; currentOutputTranscriptionRef := [];
     streamRef := false; sessionCallbacks := None; scriptProcessor := None;
     audioLog := []; sentFrames := []; nextSourceId := O |}.

End App.

(** ** Sessions as sequences of events *)

Module Session.
Import AudioCodec App.

(** Everything that can call into the component during a session: the
    two buttons that start and stop it, the session callbacks, the
    capture callback, the mute button and the end of a source node. *)
Inductive Event :=
| Connect (getUserMedia : bool)
| Open
| AudioProcess (inputData : list Q)
| ToggleMute
| Message (currentTime : Q) (message : LiveServerMessage)
| Ended (source : SourceId)
| Disconnect
| Close
| Error.

Definition handle (e : Event) (s : State) : State :=
  match e with
  | Connect getUserMedia => connect getUserMedia s
  | Open => onopen s
  | AudioProcess inputData => onaudioprocess inputData s
  | ToggleMute => toggleMute s
  | Message currentTime message => onmessage currentTime message s
  | Ended source => onended source s
  | Disconnect => disconnect s
  | Close => onclose s
  | Error => onerror s
  end.

Definition replay (events : list Event) (s : State) : State :=
  fold_left (fun s e => handle e s) events s.

(** The sources [start] and [stop] were called on, oldest call first. *)
Fixpoint startedIds (log : list AudioOp) : list SourceId :=
  match log with
  | [] => []
  | Start source _ _ :: rest => source :: startedIds rest
  | Stop _ :: rest => startedIds rest
  end.

Fixpoint stoppedIds (log : list AudioOp) : list SourceId :=
  match log with
  | [] => []
  | Start _ _ _ :: rest => stoppedIds rest
  | Stop source :: rest => source :: stoppedIds rest
  end.

(** Every [stop] comes after the [start] of the same source. *)
Fixpoint orderly (started : list SourceId) (log : list AudioOp) : Prop :=
  match log with
  | [] => True
  | Start source _ _ :: rest => orderly (source :: started) rest
  | Stop source :: rest => In source started /\ orderly started rest
  end.

(** The chunks a run of messages enqueues: arrival time and bytes of
    every message whose [base64Audio] is truthy. *)
Definition enqueued (events : list (Q * LiveServerMessage))
  : list (Q * list byte) :=
  flat_map
    (fun e =>
       match serverContent (snd e) with
       | Some sc =>
           match base64Audio sc with
           | Some (b :: bs) => [ (fst e, b :: bs) ]
           | _ => []
           end
       | None => []
       end) events.

(** Chunks that never starve the output: each arrives no later than the
    end of the audio scheduled before it. *)
Fixpoint fed (clock : Q) (chunks : list (Q * list byte)) : Prop :=
  match chunks with
  | [] => True
  | (currentTime, bytes) :: rest =>
      currentTime <= clock /\ fed (clock + duration (decode bytes)) rest
  end.

(** Segments laid end to end from [clock]. *)
Fixpoint chain (clock : Q) (chunks : list (Q * list byte)) : list (Q * Q) :=
  match chunks with
  | [] => []
  | (_, bytes) :: rest =>
      (clock, duration (decode bytes))
        :: chain (clock + duration (decode bytes)) rest
  end.

(** The bookkeeping of the source nodes is sound: the in-flight set
    has no duplicate and holds only sources that were started and not
    stopped; started sources are older than the next one to create; no
    source is started or stopped twice; every [stop] follows the
    [start] of its source. *)
Definition playbackSound (s : State) : Prop :=
  NoDup (sourcesRef s) /\
  (forall source, In source (sourcesRef s) ->
     In source (startedIds (audioLog s)) /\
     ~ In source (stoppedIds (audioLog s))) /\
  (forall source, In source (startedIds (audioLog s)) ->
     (source < nextSourceId s)%nat) /\
  NoDup (startedIds (audioLog s)) /\
  NoDup (stoppedIds (audioLog s)) /\
  orderly [] (audioLog s).

(** No time handed to [source.start] is negative, nor is the clock. *)
Definition clockSound (s : State) : Prop :=
  0 <= nextStartTimeRef s /\
  Forall (fun seg => 0 <= fst seg) (scheduled (audioLog s)).

(** The live texts on screen are the transcription buffers. *)
Definition liveTextSound (s : State) : Prop :=
  streamingUserText s = currentInputTranscriptionRef s /\
  streamingModelText s = currentOutputTranscriptionRef s.

Definition isConnect (e : Event) : bool :=
  match e with Connect _ => true | _ => false end.

(** A transcript entry with something to read. *)
Definition visible (m : AudioMessage) : bool :=
  match text m with
  | Some t => has_text t
  | None => false
  end.

End Session.

(** ** The visualizer ([components/Visualizer.tsx])

    One animation frame of [render], up to the polar geometry: the
    radius of the glowing core and, for every bar, the radii between
    which it is drawn along its angle.  The byte data is what
    [analyser.getByteFrequencyData] wrote into the [Uint8Array].  Its
    length, [frequencyBinCount], is a power of two, so the divisions
    below are exact on JavaScript numbers as they are on rationals. *)

Module Visualizer.

Definition radius : Q := 80.
Definition barCount : nat := 60.

(** Half the side of the 400 by 400 canvas: [cx] and [cy]. *)
Definition center : Q := 400 / 2.

(** [sum], after the loop over the bins. *)
Definition sum (dataArray : list Byte.byte) : N :=
  fold_left (fun acc value => (acc + Byte.to_N value)%N) dataArray 0%N.

Definition average (dataArray : list Byte.byte) : Q :=
  inject_Z (Z.of_N (sum dataArray)) / inject_Z (Z.of_nat (length dataArray)).

Definition scale (dataArray : list Byte.byte) : Q :=
  1 + (average dataArray / 256) * (1 # 2).

(** [Math.floor(bufferLength / barCount)]. *)
Definition step (bufferLength : nat) : nat := Nat.div bufferLength barCount.

(** Bar [i]: the radii of its two ends, or [None] when
    [dataArray[i * step]] is outside the array. *)
Definition bar (dataArray : list Byte.byte) (i : nat) : option (Q * Q) :=
  match nth_error dataArray (i * step (length dataArray)) with
  | Some value =>
      let percent := inject_Z (Z.of_N (Byte.to_N value)) / 256 in
      let barHeight := radius * (1 # 2) * percent * scale dataArray in
      Some (radius * scale dataArray, radius * scale dataArray + barHeight)
  | None => None
  end.

Record Frame := mkFrame {
  coreRadius : Q;
  bars : list (option (Q * Q))
}.

(** One frame.  With no analyser the effect returns before drawing.
    Inactive, the core is drawn at [radius * 1] and no bar, whatever
    the data.  Active with an empty array, the average is 0/0 and
    nothing has a size. *)
Definition render (analyser : option (list Byte.byte)) (isActive : bool)
  : option Frame :=
  match analyser with
  | None => None
  | Some dataArray =>
      if isActive then
        match dataArray with
        | [] => None
        | _ :: _ =>
            Some {| coreRadius := radius * scale dataArray;
                    bars := map (bar dataArray) (seq 0 barCount) |}
        end
      else Some {| coreRadius := radius * 1; bars := [] |}
  end.

End Visualizer.

(** ** Conversation history ([App.tsx], the two history effects and the
    handlers around them)

    [localStorage] is read through the two keys [chat_history_${mode}].
    A stored value is either the JSON text of a list of messages, as
    [JSON.stringify] writes it and [JSON.parse] reads it back, or a
    non-empty text that [JSON.parse] rejects.  An effect runs after the
    render in which one of its dependencies changed, with the values of
    that render. *)

Module History.
Import App.

Inductive PersonaMode := GIRLFRIEND | INTERVIEWER.

Inductive Stored :=
| Json (saved : list AudioMessage)
| Unparseable.

(** [localStorage.getItem] on the key of each persona. *)
Definition Storage := PersonaMode -> option Stored.

Definition sameMode (a b : PersonaMode) : bool :=
  match a, b with
  | GIRLFRIEND, GIRLFRIEND | INTERVIEWER, INTERVIEWER => true
  | _, _ => false
  end.

Definition setItem (key : PersonaMode) (value : Stored) (storage : Storage)
  : Storage :=
  fun k => if sameMode key k then Some value else storage k.

Definition removeItem (key : PersonaMode) (storage : Storage) : Storage :=
  fun k => if sameMode key k then None else storage k.

Record Page := mkPage {
  mode : option PersonaMode;
  session : State;
  localStorage : Storage
}.

Definition transcript (p : Page) : list AudioMessage := messages (session p).

(** [// Load History]: the state the effect asks for. *)
Definition loadHistory (p : Page) : Page :=
  match mode p with
  | None => p
  | Some m =>
      let loaded :=
        match localStorage p m with
        | Some (Json saved) => saved
        | Some Unparseable => []
        | None => []
        end in
      mkPage (mode p)
             (set_streamingModelText []
                (set_streamingUserText [] (set_messages loaded (session p))))
             (localStorage p)
  end.

(** [// Save History]. *)
Definition saveHistory (p : Page) : Page :=
  match mode p with
  | None => p
  | Some m =>
      if (0 <? length (transcript p))%nat
      then mkPage (mode p) (session p)
                  (setItem m (Json (transcript p)) (localStorage p))
      else p
  end.

(** The effects that follow a change of [mode].  Both run with the
    messages of the render that changed the mode; the messages that
    [loadHistory] sets cause one more render, after which
    [saveHistory] runs again. *)
Definition afterModeChange (p : Page) : Page :=
  let written := localStorage (saveHistory p) in
  let p := loadHistory p in
  saveHistory (mkPage (mode p) (session p) written).

(** [handleModeSelect], [handleSwitchPersona] and [clearHistory]
    ([confirmed] is the answer to [window.confirm]). *)
Definition handleModeSelect (selectedMode : PersonaMode) (p : Page) : Page :=
  mkPage (Some selectedMode) (set_messages [] (session p)) (localStorage p).

Definition handleSwitchPersona (p : Page) : Page :=
  mkPage None (set_messages [] (disconnect (session p))) (localStorage p).

Definition clearHistory (confirmed : bool) (p : Page) : Page :=
  match mode p with
  | None => p
  | Some m =>
      if confirmed
      then mkPage (mode p) (set_messages [] (session p))
                  (removeItem m (localStorage p))
      else p
  end.

(** [hasHistory]; [None] when [JSON.parse] throws. *)
Definition hasHistory (modeId : PersonaMode) (p : Page) : option bool :=
  match localStorage p modeId with
  | None => Some false
  | Some (Json saved) => Some (0 <? length saved)%nat
  | Some Unparseable => None
  end.

(** The handlers followed by the effects they trigger.  A message
    changes [messages] exactly when the turn-completion branch pushed
    an entry. *)
Definition selectMode (selectedMode : PersonaMode) (p : Page) : Page :=
  afterModeChange (handleModeSelect selectedMode p).

Definition switchPersona (p : Page) : Page := handleSwitchPersona p.

Definition clear (confirmed : bool) (p : Page) : Page :=
  if confirmed then saveHistory (clearHistory confirmed p)
  else clearHistory confirmed p.

Definition receive (currentTime : Q) (message : LiveServerMessage) (p : Page)
  : Page :=
  let p' := mkPage (mode p) (onmessage currentTime message (session p))
                   (localStorage p) in
  if (length (transcript p') =? length (transcript p))%nat
  then p' else saveHistory p'.

End History.

(** ** Codec lemmas *)

Module AudioCodecFacts.
Import AudioCodec.

Lemma clamp_range (x : Q) : -1 <= clamp x /\ clamp x <= 1.
Proof.
  unfold clamp. split.
  - apply Q.le_max_l.
  - apply Q.max_lub; [ discriminate | apply Q.le_min_l ].
Qed.

Lemma round_half_away_near (x : Q) :
  inject_Z (round_half_away x) - x <= 1 # 2 /\
  x - inject_Z (round_half_away x) <= 1 # 2.
Proof.
  unfold round_half_away.
  destruct (Qle_bool 0 x).
  - pose proof (Qfloor_le (x + (1 # 2))) as Hlo.
    pose proof (Qlt_floor (x + (1 # 2))) as Hhi.
    rewrite inject_Z_plus in Hhi. change (inject_Z 1) with 1 in Hhi.
    split; lra.
  - pose proof (Qfloor_le (- x + (1 # 2))) as Hlo.
    pose proof (Qlt_floor (- x + (1 # 2))) as Hhi.
    rewrite inject_Z_plus in Hhi. change (inject_Z 1) with 1 in Hhi.
    rewrite inject_Z_opp.
    split; lra.
Qed.

Lemma inject_Z_lt_inv (a b : Z) : inject_Z a < inject_Z b -> (a < b)%Z.
Proof. intros H. rewrite Zlt_Qlt. exact H. Qed.

Lemma round_scaled_range (y : Q) :
  -1 <= y -> y <= 1 ->
  (-32768 <= round_half_away (y * 32768) <= 32768)%Z.
Proof.
  intros Hlo Hhi.
  destruct (round_half_away_near (y * 32768)) as [H1 H2].
  split.
  - assert (inject_Z (-32769) < inject_Z (round_half_away (y * 32768))) as H.
    { change (inject_Z (-32769)) with (-32769 # 1). lra. }
    apply inject_Z_lt_inv in H. lia.
  - assert (inject_Z (round_half_away (y * 32768)) < inject_Z 32769) as H.
    { change (inject_Z 32769) with (32769 # 1). lra. }
    apply inject_Z_lt_inv in H. lia.
Qed.

Lemma quantize_range (x : Q) : (-32768 <= quantize x <= 32767)%Z.
Proof. unfold quantize. lia. Qed.

Lemma dequantize_inject (v : Z) : dequantize v == inject_Z v * (1 # 32768).
Proof.
  unfold dequantize, Qeq, Qmult, inject_Z. simpl. lia.
Qed.

(** One sample: the quantization error against the clamped sample. *)
Lemma quantize_error (x : Q) :
  Qabs (dequantize (quantize x) - clamp x) <= 1 # 32768.
Proof.
  unfold quantize.
  destruct (clamp_range x) as [Hlo Hhi].
  set (y := clamp x) in *. clearbody y.
  pose proof (round_scaled_range y Hlo Hhi) as Hr.
  destruct (round_half_away_near (y * 32768)) as [H1 H2].
  set (r := round_half_away (y * 32768)) in *. clearbody r.
  rewrite dequantize_inject.
  apply Qabs_Qle_condition.
  destruct (Z.eq_dec r 32768) as [E | NE].
  - rewrite E in *.
    replace (Z.max (-32768) (Z.min 32767 32768)) with 32767%Z by reflexivity.
    change (inject_Z 32768) with (32768 # 1) in H1, H2.
    change (inject_Z 32767) with (32767 # 1).
    split; lra.
  - replace (Z.max (-32768) (Z.min 32767 r)) with r by lia.
    split; lra.
Qed.

Lemma int16_bytes_roundtrip (v : Z) :
  (-32768 <= v <= 32767)%Z ->
  exists lo hi, int16_bytes v = [lo; hi] /\ int16_of_bytes lo hi = v.
Proof.
  intros Hv. unfold int16_bytes.
  eexists; eexists; split; [ reflexivity | ].
  unfold int16_of_bytes.
  set (u := (v mod 65536)%Z).
  assert (0 <= u < 65536)%Z as Hu by (apply Z.mod_pos_bound; lia).
  replace (u mod 256 + 256 * (u / 256))%Z with u
    by (rewrite (Z.div_mod u 256) at 1; lia).
  destruct (Z.ltb_spec u 32768) as [Hlt | Hge].
  - destruct (Z_lt_le_dec v 0) as [Hneg | Hpos].
    + exfalso. subst u.
      assert (v mod 65536 = v + 65536)%Z.
      { symmetry. apply Z.mod_unique with (q := (-1)%Z); lia. }
      lia.
    + subst u. apply Z.mod_small. lia.
  - destruct (Z_lt_le_dec v 0) as [Hneg | Hpos].
    + subst u.
      assert (v mod 65536 = v + 65536)%Z.
      { symmetry. apply Z.mod_unique with (q := (-1)%Z); lia. }
      lia.
    + exfalso. subst u. rewrite Z.mod_small in Hge; lia.
Qed.

Lemma decode_encode_samples (samples : list Q) :
  decode (encode samples) = map (fun x => dequantize (quantize x)) samples.
Proof.
  induction samples as [| x rest IH]; [ reflexivity | ].
  unfold encode in *. cbn [flat_map map].
  destruct (int16_bytes_roundtrip (quantize x) (quantize_range x))
    as (lo & hi & Hb & Hv).
  rewrite Hb. cbn [app decode]. rewrite Hv, IH. reflexivity.
Qed.

Lemma round_half_away_tie_up (n : Z) :
  (0 <= n)%Z -> round_half_away (inject_Z n + (1 # 2)) = (n + 1)%Z.
Proof.
  intros Hn. unfold round_half_away.
  assert (0 <= inject_Z n) as Hq by (change 0 with (inject_Z 0); now rewrite <- Zle_Qle).
  assert (Qle_bool 0 (inject_Z n + (1 # 2)) = true) as ->
    by (apply Qle_bool_iff; lra).
  assert (inject_Z n + (1 # 2) + (1 # 2) == inject_Z (n + 1)) as ->
    by (rewrite inject_Z_plus; change (inject_Z 1) with 1; lra).
  apply Qfloor_Z.
Qed.

Lemma round_half_away_tie_down (n : Z) :
  (n <= 0)%Z -> round_half_away (inject_Z n - (1 # 2)) = (n - 1)%Z.
Proof.
  intros Hn. unfold round_half_away.
  assert (inject_Z n <= 0) as Hq by (change 0 with (inject_Z 0); now rewrite <- Zle_Qle).
  destruct (Qle_bool 0 (inject_Z n - (1 # 2))) eqn:E.
  - apply Qle_bool_iff in E. lra.
  - assert (- (inject_Z n - (1 # 2)) + (1 # 2) == inject_Z (- n + 1)) as ->
      by (rewrite inject_Z_plus, inject_Z_opp; change (inject_Z 1) with 1; lra).
    rewrite Qfloor_Z. lia.
Qed.

Lemma clamp_inside (x : Q) : -1 <= x -> x <= 1 -> clamp x == x.
Proof.
  intros Hlo Hhi. unfold clamp.
  rewrite (Q.min_r 1 x Hhi). apply Q.max_r. exact Hlo.
Qed.

Lemma clamp_above (x : Q) : 1 <= x -> clamp x == 1.
Proof.
  intros H. unfold clamp. rewrite (Q.min_l 1 x H). apply Q.max_r. discriminate.
Qed.

Lemma clamp_below (x : Q) : x <= -1 -> clamp x == -1.
Proof.
  intros H. unfold clamp.
  assert (x <= 1) as H1 by lra.
  rewrite (Q.min_r 1 x H1). apply Q.max_l. exact H.
Qed.

Lemma int16_bytes_little_endian (v : Z) :
  exists lo hi,
    int16_bytes v = [lo; hi] /\
    (0 <= lo < 256)%Z /\ (0 <= hi < 256)%Z /\
    (lo + 256 * hi = v mod 65536)%Z.
Proof.
  unfold int16_bytes.
  set (u := (v mod 65536)%Z).
  assert (0 <= u < 65536)%Z as Hu by (apply Z.mod_pos_bound; lia).
  exists (u mod 256)%Z, (u / 256)%Z.
  split; [ reflexivity | ].
  split; [ apply Z.mod_pos_bound; lia | ].
  split.
  - split; [ apply Z.div_pos; lia | apply Z.div_lt_upper_bound; lia ].
  - rewrite (Z.div_mod u 256) at 3 by lia. lia.
Qed.

Lemma encode_length (samples : list Q) :
  length (encode samples) = (2 * length samples)%nat.
Proof.
  induction samples as [| x rest IH]; [ reflexivity | ].
  unfold encode in *. cbn [flat_map]. rewrite length_app, IH.
  cbn. lia.
Qed.

Lemma inject_Z_le_inv (a b : Z) : inject_Z a <= inject_Z b -> (a <= b)%Z.
Proof. intros H. rewrite Zle_Qle. exact H. Qed.

(** On a tie the rounding goes away from zero: up by one half only for
    a non-negative argument, down by one half only for a negative one. *)
Lemma round_half_away_tie_rule (t : Q) :
  (inject_Z (round_half_away t) - t == 1 # 2 -> 0 <= t) /\
  (t - inject_Z (round_half_away t) == 1 # 2 -> t < 0).
Proof.
  unfold round_half_away.
  destruct (Qle_bool 0 t) eqn:E.
  - apply Qle_bool_iff in E.
    pose proof (Qlt_floor (t + (1 # 2))) as Hhi.
    rewrite inject_Z_plus in Hhi. change (inject_Z 1) with 1 in Hhi.
    split; intros H; [ exact E | lra ].
  - assert (t < 0) as Hneg.
    { apply Qnot_le_lt. intros Hle. apply Qle_bool_iff in Hle. congruence. }
    pose proof (Qlt_floor (- t + (1 # 2))) as Hhi.
    rewrite inject_Z_plus in Hhi. change (inject_Z 1) with 1 in Hhi.
    rewrite inject_Z_opp.
    split; intros H; [ lra | exact Hneg ].
Qed.

(** Below the last half step the quantizer is the rounding itself. *)
Lemma quantize_unsaturated (x : Q) :
  clamp x * 32768 < 32767 + (1 # 2) ->
  quantize x = round_half_away (clamp x * 32768).
Proof.
  intros Hlt. unfold quantize.
  destruct (clamp_range x) as [Hlo Hhi].
  pose proof (round_scaled_range (clamp x) Hlo Hhi) as Hr.
  destruct (round_half_away_near (clamp x * 32768)) as [H1 _].
  assert (inject_Z (round_half_away (clamp x * 32768)) < inject_Z 32768) as H.
  { change (inject_Z 32768) with (32768 # 1). lra. }
  apply inject_Z_lt_inv in H. lia.
Qed.

Lemma quantize_saturated (x : Q) :
  32767 + (1 # 2) <= clamp x * 32768 -> quantize x = 32767%Z.
Proof.
  intros Hge. unfold quantize.
  destruct (round_half_away_near (clamp x * 32768)) as [_ H2].
  assert (inject_Z 32767 <= inject_Z (round_half_away (clamp x * 32768))) as H.
  { change (inject_Z 32767) with (32767 # 1). lra. }
  apply inject_Z_le_inv in H. lia.
Qed.

Lemma quantize_above (x : Q) : 1 <= x -> quantize x = 32767%Z.
Proof.
  intros H. apply quantize_saturated.
  rewrite (clamp_above x H). unfold Qle. cbn. lia.
Qed.

Lemma quantize_below (x : Q) : x <= -1 -> quantize x = (-32768)%Z.
Proof.
  intros H. unfold quantize.
  assert (clamp x * 32768 == -32768) as E
    by (rewrite (clamp_below x H); reflexivity).
  destruct (round_half_away_near (clamp x * 32768)) as [H1 H2].
  set (r := round_half_away (clamp x * 32768)) in *. clearbody r.
  set (t := clamp x * 32768) in *. clearbody t.
  assert (inject_Z (-32769) < inject_Z r) as Hlo
    by (change (inject_Z (-32769)) with (-32769 # 1); lra).
  assert (inject_Z r < inject_Z (-32767)) as Hhi
    by (change (inject_Z (-32767)) with (-32767 # 1); lra).
  apply inject_Z_lt_inv in Hlo, Hhi. lia.
Qed.

(** One sample inside [-1,1]: the error against the sample itself. *)
Lemma quantize_error_inside (x : Q) :
  -1 <= x -> x <= 1 ->
  Qabs (dequantize (quantize x) - x) <= 1 # 32768.
Proof.
  intros Hlo Hhi. pose proof (quantize_error x) as H.
  now rewrite (clamp_inside x Hlo Hhi) in H.
Qed.

(** C4.  For every sample buffer, [encode] clamps each sample to [-1,1]
    (a sample inside is kept, one above becomes 1, one below -1),
    quantizes it to a signed 16-bit integer, the nearest to the clamped
    sample times 32768 with ties away from zero, kept at 32767 at the
    top, and writes it as two little-endian bytes; [decode] divides by
    32768 and gives back every clamped sample, so every sample of
    [-1,1] itself, within 1/32768. *)
Theorem encode_decode_within_quantization_error (samples : list Q) :
  Forall (fun x =>
            (-1 <= x -> x <= 1 -> clamp x == x) /\
            (1 <= x -> clamp x == 1) /\
            (x <= -1 -> clamp x == -1) /\
            (clamp x * 32768 < 32767 + (1 # 2) ->
             Qabs (inject_Z (quantize x) - clamp x * 32768) <= 1 # 2 /\
             (inject_Z (quantize x) - clamp x * 32768 == 1 # 2 ->
              0 <= clamp x) /\
             (clamp x * 32768 - inject_Z (quantize x) == 1 # 2 ->
              clamp x < 0)) /\
            (32767 + (1 # 2) <= clamp x * 32768 -> quantize x = 32767%Z) /\
            (1 <= x -> quantize x = 32767%Z) /\
            (x <= -1 -> quantize x = (-32768)%Z) /\
            (-1 <= x -> x <= 1 ->
             Qabs (Qmake (quantize x) 32768 - x) <= 1 # 32768) /\
            -1 <= clamp x /\ clamp x <= 1 /\
            (-32768 <= quantize x <= 32767)%Z /\
            quantize x = Z.min 32767 (round_half_away (clamp x * 32768)) /\
            exists lo hi,
              int16_bytes (quantize x) = [lo; hi] /\
              (0 <= lo < 256)%Z /\ (0 <= hi < 256)%Z /\
              (lo + 256 * hi = quantize x mod 65536)%Z) samples /\
  encode samples = flat_map (fun x => int16_bytes (quantize x)) samples /\
  length (encode samples) = (2 * length samples)%nat /\
  decode (encode samples) = map (fun x => Qmake (quantize x) 32768) samples /\
  Forall2 (fun x y => Qabs (y - clamp x) <= 1 # 32768)
          samples (decode (encode samples)).
Proof.
  split; [ | split; [ reflexivity | split; [ apply encode_length | split ] ] ].
  - apply Forall_forall. intros x _.
    destruct (clamp_range x) as [Hlo Hhi].
    refine (conj (clamp_inside x) (conj (clamp_above x) (conj (clamp_below x)
             (conj _ (conj (quantize_saturated x) (conj (quantize_above x)
             (conj (quantize_below x) (conj (quantize_error_inside x)
             (conj Hlo (conj Hhi (conj (quantize_range x)
             (conj _ (int16_bytes_little_endian _))))))))))))).
    + intros Hlt. rewrite (quantize_unsaturated x Hlt).
      destruct (round_half_away_near (clamp x * 32768)) as [H1 H2].
      destruct (round_half_away_tie_rule (clamp x * 32768)) as [T1 T2].
      split; [ apply Qabs_Qle_condition; split; lra | ].
      split; intros H; [ specialize (T1 H) | specialize (T2 H) ]; lra.
    + unfold quantize.
      pose proof (round_scaled_range (clamp x) Hlo Hhi). lia.
  - apply decode_encode_samples.
  - rewrite decode_encode_samples.
    induction samples as [| x rest IH]; constructor.
    + apply quantize_error.
    + exact IH.
Qed.

Lemma encode_decode_within_quantization_error_witness :
  let samples := [ 1 # 2; 2; -3; 3 # 65536 ] in
  (clamp (1 # 2) == 1 # 2 /\
   Qabs (Qmake (quantize (1 # 2)) 32768 - (1 # 2)) <= 1 # 32768) /\
  (clamp 2 == 1 /\ quantize 2 = 32767%Z) /\
  (clamp (-3) == -1 /\ quantize (-3) = (-32768)%Z) /\
  (Qabs (inject_Z (quantize (3 # 65536)) - clamp (3 # 65536) * 32768) <= 1 # 2 /\
   0 <= clamp (3 # 65536)).
Proof.
  intros samples.
  destruct (encode_decode_within_quantization_error samples) as (H & _).
  pose proof (proj1 (Forall_forall _ _) H) as F.
  destruct (F (1 # 2)) as (C1 & _ & _ & _ & _ & _ & _ & E1 & _); [ cbn; auto | ].
  destruct (F 2) as (_ & C2 & _ & _ & _ & Q2 & _); [ cbn; auto | ].
  destruct (F (-3)) as (_ & _ & C3 & _ & _ & _ & Q3 & _); [ cbn; auto | ].
  destruct (F (3 # 65536)) as (_ & _ & _ & N4 & _); [ cbn; auto 6 | ].
  assert (clamp (3 # 65536) * 32768 < 32767 + (1 # 2)) as L4
    by (vm_compute; reflexivity).
  destruct (N4 L4) as (A4 & U4 & _).
  assert (inject_Z (quantize (3 # 65536)) - clamp (3 # 65536) * 32768 == 1 # 2)
    as T4 by (vm_compute; reflexivity).
  refine (conj (conj (C1 _ _) (E1 _ _))
            (conj (conj (C2 _) (Q2 _))
               (conj (conj (C3 _) (Q3 _)) (conj A4 (U4 T4)))));
    unfold Qle; cbn; lia.
Defined.

(** Ties go away from zero, on both sides. *)
Example quantize_ties :
  quantize (1 # 65536) = 1%Z /\ quantize (-1 # 65536) = (-1)%Z /\
  quantize (3 # 65536) = 2%Z /\ quantize (-3 # 65536) = (-2)%Z /\
  quantize 2 = 32767%Z /\ quantize (-2) = (-32768)%Z.
Proof. repeat split; reflexivity. Qed.

(** 4096 silent samples make 8192 zero bytes, and come back silent. *)
Example silence_roundtrip :
  encode (repeat 0 (4 * 1024)) = repeat 0%Z (8 * 1024) /\
  Forall (fun y => y == 0) (decode (encode (repeat 0 (4 * 1024)))).
Proof.
  split; [ vm_compute; reflexivity | ].
  apply Forall_forall. intros y Hy.
  rewrite decode_encode_samples in Hy. apply in_map_iff in Hy.
  destruct Hy as (x & <- & Hx). apply repeat_spec in Hx. subst x.
  reflexivity.
Qed.

End AudioCodecFacts.

(** ** The playback scheduler *)

Module SchedulerFacts.
Import AudioCodec App.

Lemma duration_nonneg (audioBuffer : list Q) : 0 <= duration audioBuffer.
Proof. unfold duration, Qle. simpl. lia. Qed.

Lemma scheduled_app (l1 l2 : list AudioOp) :
  scheduled (l1 ++ l2) = scheduled l1 ++ scheduled l2.
Proof.
  induction l1 as [| [src w d | src] rest IH]; simpl; [ reflexivity | | exact IH ].
  now rewrite IH.
Qed.

Lemma scheduled_stops (l : list SourceId) : scheduled (map Stop l) = [].
Proof. induction l; simpl; auto. Qed.

(** One enqueue, field by field. *)
Lemma enqueue_step (currentTime : Q) (bytes : list byte) (s : State) :
  audioContextRef s = true -> bytes <> [] ->
  let startTime := Qmax (nextStartTimeRef s) currentTime in
  let d := duration (decode bytes) in
  let s' := onmessage currentTime (audioChunk bytes) s in
  audioLog s' = audioLog s ++ [Start (nextSourceId s) startTime d] /\
  nextStartTimeRef s' = startTime + d /\
  audioContextRef s' = true /\
  nextSourceId s' = S (nextSourceId s).
Proof.
  intros Hctx Hbytes. destruct bytes as [| b bs]; [ congruence | ].
  unfold onmessage, audioChunk. cbn [serverContent].
  unfold handleTranscription, handleTurnComplete, handleAudio, handleInterrupted.
  cbn [outputTranscription inputTranscription turnComplete interrupted
       base64Audio modelTurn inlineData].
  rewrite Hctx. cbn. auto.
Qed.

Lemma schedule_starts_after_clock (chunks : list (Q * list byte)) (clock : Q) :
  Forall (fun seg => clock <= fst seg) (schedule clock chunks).
Proof.
  revert clock. induction chunks as [| [now bytes] rest IH]; intros clock.
  - constructor.
  - cbn [schedule]. constructor.
    + apply Q.le_max_l.
    + specialize (IH (Qmax clock now + duration (decode bytes))).
      eapply Forall_impl; [ | exact IH ].
      intros seg Hseg. cbn beta in *.
      pose proof (Q.le_max_l clock now).
      pose proof (duration_nonneg (decode bytes)).
      lra.
Qed.

Lemma schedule_backToBack (chunks : list (Q * list byte)) (clock : Q) :
  backToBack (schedule clock chunks).
Proof.
  revert clock. induction chunks as [| [now bytes] rest IH]; intros clock.
  - exact I.
  - cbn [schedule].
    specialize (IH (Qmax clock now + duration (decode bytes))).
    destruct rest as [| [now2 bytes2] rest2].
    + exact I.
    + cbn [schedule] in *. cbn [backToBack].
      pose proof (Q.le_max_l (Qmax clock now + duration (decode bytes)) now2).
      pose proof (duration_nonneg (decode bytes)).
      repeat split; [ lra | assumption | exact IH ].
Qed.

(** C1.  Along every sequence of enqueues, each segment starts at
    [max(OutputClock, currentTime)] and the clock moves to that start
    plus the segment's duration; so the scheduled starts never decrease
    and each is at least the previous start plus the previous duration. *)
Theorem enqueue_sequence_gapless (chunks : list (Q * list byte)) (s : State) :
  audioContextRef s = true ->
  Forall (fun c => snd c <> []) chunks ->
  let s' := run (audioChunks chunks) s in
  scheduled (audioLog s') =
    scheduled (audioLog s) ++ schedule (nextStartTimeRef s) chunks /\
  nextStartTimeRef s' = clockAfter (nextStartTimeRef s) chunks /\
  backToBack (schedule (nextStartTimeRef s) chunks) /\
  Forall (fun seg => nextStartTimeRef s <= fst seg)
         (schedule (nextStartTimeRef s) chunks).
Proof.
  intros Hctx Hall.
  split; [ | split;
             [ | split; [ apply schedule_backToBack
                        | apply schedule_starts_after_clock ] ] ].
  - revert s Hctx. induction Hall as [| [now bytes] rest Hb _ IH]; intros s Hctx.
    + cbn. now rewrite app_nil_r.
    + cbn [audioChunks map run fold_left fst snd schedule].
      destruct (enqueue_step now bytes s Hctx Hb) as (Hlog & Hclock & Hctx' & _).
      specialize (IH _ Hctx'). unfold run, audioChunks in IH.
      rewrite IH, Hlog, Hclock, scheduled_app, <- app_assoc. reflexivity.
  - revert s Hctx. induction Hall as [| [now bytes] rest Hb _ IH]; intros s Hctx.
    + reflexivity.
    + cbn [audioChunks map run fold_left fst snd clockAfter].
      destruct (enqueue_step now bytes s Hctx Hb) as (_ & Hclock & Hctx' & _).
      specialize (IH _ Hctx'). unfold run, audioChunks in IH.
      rewrite IH, Hclock. reflexivity.
Qed.

Lemma enqueue_sequence_gapless_witness :
  let s := set_audioContextRef true initial in
  let chunks := [ (1 # 2, [0; 0; 0; 0]%Z); (0, [1; 0]%Z); (3, [0; 128]%Z) ] in
  let s' := run (audioChunks chunks) s in
  scheduled (audioLog s') =
    scheduled (audioLog s) ++ schedule (nextStartTimeRef s) chunks /\
  nextStartTimeRef s' = clockAfter (nextStartTimeRef s) chunks /\
  backToBack (schedule (nextStartTimeRef s) chunks) /\
  Forall (fun seg => nextStartTimeRef s <= fst seg)
         (schedule (nextStartTimeRef s) chunks).
Proof.
  intros s chunks.
  apply (enqueue_sequence_gapless chunks s).
  - reflexivity.
  - repeat constructor; discriminate.
Defined.

(** The handling of one [interrupted] event, field by field. *)
Lemma interrupted_step (currentTime : Q) (s : State) :
  onmessage currentTime interruptedEvent s =
  set_streamingModelText []
    (set_currentOutputTranscriptionRef []
       (set_nextStartTimeRef 0
          (set_sourcesRef []
             (set_audioLog (audioLog s ++ map Stop (sourcesRef s)) s)))).
Proof. reflexivity. Qed.

(** C2.  An [interrupted] event stops every in-flight segment, empties
    the in-flight set, resets the clock to 0 and empties the model
    buffer (and the live model text); the user buffer, the live user
    text and the transcript are as before. *)
Theorem interrupted_flushes_playback_and_model_buffer
  (currentTime : Q) (s : State) :
  let s' := onmessage currentTime interruptedEvent s in
  sourcesRef s' = [] /\
  audioLog s' = audioLog s ++ map Stop (sourcesRef s) /\
  nextStartTimeRef s' = 0 /\
  currentOutputTranscriptionRef s' = [] /\
  streamingModelText s' = [] /\
  currentInputTranscriptionRef s' = currentInputTranscriptionRef s /\
  streamingUserText s' = streamingUserText s /\
  messages s' = messages s.
Proof. cbv zeta. rewrite interrupted_step. repeat split. Qed.

(** The scenario of the specification: a model buffer in progress and
    two segments in flight. *)
Example interrupted_two_in_flight :
  let s0 := set_audioContextRef true initial in
  let s1 := run [ (0, transcriptFragment user [104; 105]%N);
                  (0, transcriptFragment model [72; 101]%N);
                  (0, audioChunk [0; 0; 0; 0]%Z);
                  (0, audioChunk [0; 0]%Z) ] s0 in
  let s2 := onmessage (1 # 1000) interruptedEvent s1 in
  sourcesRef s1 = [0; 1]%nat /\
  currentOutputTranscriptionRef s1 = [72; 101]%N /\
  sourcesRef s2 = [] /\ nextStartTimeRef s2 = 0 /\
  currentOutputTranscriptionRef s2 = [] /\
  currentInputTranscriptionRef s2 = [104; 105]%N /\
  audioLog s2 = audioLog s1 ++ [Stop 0%nat; Stop 1%nat].
Proof. vm_compute. repeat split. Qed.

(** C7.  Flushing twice is flushing once: the second [interrupted]
    handling leaves every field as the first one left it, the log of
    [stop] calls included.  In particular, with no segment in flight a
    flush stops nothing, and a scheduler that is already flushed (no
    segment in flight, clock at 0) is left as it is. *)
Theorem flush_idempotent (t1 t2 : Q) (s : State) :
  onmessage t2 interruptedEvent (onmessage t1 interruptedEvent s) =
    onmessage t1 interruptedEvent s /\
  scheduler (onmessage t2 interruptedEvent (onmessage t1 interruptedEvent s)) =
    scheduler (onmessage t1 interruptedEvent s) /\
  (sourcesRef s = [] ->
   audioLog (onmessage t1 interruptedEvent s) = audioLog s /\
   sourcesRef (onmessage t1 interruptedEvent s) = []) /\
  (sourcesRef s = [] -> nextStartTimeRef s = 0 ->
   scheduler (onmessage t1 interruptedEvent s) = scheduler s).
Proof.
  assert (onmessage t2 interruptedEvent (onmessage t1 interruptedEvent s) =
          onmessage t1 interruptedEvent s) as Hidem.
  { rewrite !interrupted_step. destruct s. cbn. rewrite app_nil_r. reflexivity. }
  split; [ exact Hidem | split; [ now rewrite Hidem | split ] ].
  - intros Hempty. rewrite interrupted_step. cbn. rewrite Hempty. cbn.
    now rewrite app_nil_r.
  - intros Hempty Hclock. rewrite interrupted_step. unfold scheduler. cbn.
    rewrite Hempty, Hclock. cbn. now rewrite app_nil_r.
Qed.

Lemma flush_idempotent_witness :
  let s := initial in
  (sourcesRef s = [] /\ nextStartTimeRef s = 0) /\
  scheduler (onmessage 1 interruptedEvent s) = scheduler s.
Proof.
  intros s. split; [ split; reflexivity | ].
  apply (flush_idempotent 1 1 s); reflexivity.
Defined.

(** The transcription branches leave the scheduler alone. *)
Ltac split_branches :=
  repeat match goal with
         | |- context [match ?x with _ => _ end] => destruct x
         | |- context [if ?b then _ else _] => destruct b
         end.

Lemma transcription_keeps_scheduler (sc : ServerContent) (s : State) :
  scheduler (handleTranscription sc s) = scheduler s /\
  audioContextRef (handleTranscription sc s) = audioContextRef s.
Proof. unfold handleTranscription. split_branches; split; reflexivity. Qed.

Lemma turnComplete_keeps_scheduler (sc : ServerContent) (s : State) :
  scheduler (handleTurnComplete sc s) = scheduler s /\
  audioContextRef (handleTurnComplete sc s) = audioContextRef s.
Proof.
  unfold handleTurnComplete.
  destruct (turnComplete sc); [ | split; reflexivity ].
  cbv zeta.
  destruct (truthy (trim (currentInputTranscriptionRef s)));
    destruct (truthy (trim (currentOutputTranscriptionRef s)));
    split; reflexivity.
Qed.

Lemma scheduler_clock (s s' : State) :
  scheduler s' = scheduler s -> nextStartTimeRef s' = nextStartTimeRef s.
Proof. unfold scheduler. congruence. Qed.

Lemma handleAudio_clock (currentTime : Q) (sc : ServerContent) (s : State) :
  nextStartTimeRef s <= nextStartTimeRef (fst (handleAudio currentTime sc s)).
Proof.
  unfold handleAudio.
  destruct (base64Audio sc) as [[| b bs] |]; cbn [fst]; try apply Qle_refl.
  destruct (audioContextRef s); cbn [fst]; try apply Qle_refl.
  cbn.
  pose proof (Q.le_max_l (nextStartTimeRef s) currentTime).
  pose proof (duration_nonneg (decode (b :: bs))).
  cbn in *. lra.
Qed.

(** The claim C9 as it is worded fails: a flush takes the clock back to
    0, which is below its value and is not the current time. *)
Lemma flush_rewinds_clock :
  let s := run (audioChunks [ (5, [0; 0]%Z) ]) (set_audioContextRef true initial) in
  let s' := onmessage 7 interruptedEvent s in
  nextStartTimeRef s == 120001 # 24000 /\
  nextStartTimeRef s' = 0 /\
  ~ nextStartTimeRef s <= nextStartTimeRef s' /\
  ~ nextStartTimeRef s' == 7.
Proof.
  cbv zeta. repeat split.
  - vm_compute. intros H. apply H. reflexivity.
  - vm_compute. intros H. discriminate H.
Qed.

(** C9, amended.  The clock never decreases across a message that does
    not carry [interrupted]; it changes only in the audio branch (which
    moves it to [max(clock, currentTime) + duration]) and in the
    interruption branch (which sets it to 0, whatever the current time);
    the capture callbacks, the mute toggle and the end of a segment
    leave it as it is. *)
Theorem clock_monotone_between_flushes
  (currentTime : Q) (message : LiveServerMessage) (s : State) :
  (isInterrupted message = false ->
   nextStartTimeRef s <= nextStartTimeRef (onmessage currentTime message s)) /\
  (carriesAudio message = false -> isInterrupted message = false ->
   nextStartTimeRef (onmessage currentTime message s) = nextStartTimeRef s) /\
  (forall sc b bs,
     serverContent message = Some sc -> base64Audio sc = Some (b :: bs) ->
     audioContextRef s = true -> interrupted sc = false ->
     nextStartTimeRef (onmessage currentTime message s) =
       Qmax (nextStartTimeRef s) currentTime + duration (decode (b :: bs))) /\
  (isInterrupted message = true ->
   carriesAudio message = false \/ audioContextRef s = true ->
   nextStartTimeRef (onmessage currentTime message s) = 0) /\
  nextStartTimeRef (onopen s) = nextStartTimeRef s /\
  (forall inputData,
     nextStartTimeRef (onaudioprocess inputData s) = nextStartTimeRef s) /\
  nextStartTimeRef (toggleMute s) = nextStartTimeRef s /\
  (forall source, nextStartTimeRef (onended source s) = nextStartTimeRef s).
Proof.
  destruct message as [[sc |]]; unfold isInterrupted, carriesAudio, onmessage;
    cbn [serverContent].
  2: { repeat split; intros; try reflexivity; try discriminate;
         try apply Qle_refl.
       - unfold onopen. destruct (sessionCallbacks s); reflexivity.
       - unfold onaudioprocess.
         destruct (scriptProcessor s) as [[|]|]; try reflexivity.
         destruct (sessionPromiseRef s); reflexivity. }
  destruct (transcription_keeps_scheduler sc s) as [Ht Htc].
  destruct (turnComplete_keeps_scheduler sc (handleTranscription sc s)) as [Hc Hcc].
  apply scheduler_clock in Ht, Hc.
  set (s2 := handleTurnComplete sc (handleTranscription sc s)) in *.
  assert (nextStartTimeRef s2 = nextStartTimeRef s) as Hclock by congruence.
  assert (audioContextRef s2 = audioContextRef s) as Hctx by congruence.
  clearbody s2. clear Ht Hc Htc Hcc.
  repeat split.
  - intros Hint.
    pose proof (handleAudio_clock currentTime sc s2) as Hle.
    destruct (handleAudio currentTime sc s2) as [s3 [|]]; cbn [fst] in Hle.
    + unfold handleInterrupted. rewrite Hint. now rewrite <- Hclock.
    + now rewrite <- Hclock.
  - intros Haudio Hint. unfold handleAudio.
    destruct (base64Audio sc) as [[| b bs] |]; try discriminate;
      unfold handleInterrupted; rewrite Hint; exact Hclock.
  - intros sc' b bs Hsc Hb Hctx' Hint. injection Hsc as <-.
    unfold handleAudio. rewrite Hb, Hctx, Hctx'.
    unfold handleInterrupted. rewrite Hint. cbn. now rewrite Hclock.
  - intros Hint Hreach. unfold handleAudio.
    destruct (base64Audio sc) as [[| b bs] |];
      try (unfold handleInterrupted; rewrite Hint; reflexivity).
    destruct Hreach as [Hno | Hyes]; [ discriminate | ].
    rewrite Hctx, Hyes. unfold handleInterrupted. rewrite Hint. reflexivity.
  - unfold onopen. destruct (sessionCallbacks s); reflexivity.
  - intros d. unfold onaudioprocess.
    destruct (scriptProcessor s) as [[|]|]; try reflexivity.
    destruct (sessionPromiseRef s); reflexivity.
Qed.

Lemma clock_monotone_between_flushes_witness :
  let s := set_audioContextRef true initial in
  let message := audioChunk [0; 0; 0; 0]%Z in
  isInterrupted message = false /\
  nextStartTimeRef s <= nextStartTimeRef (onmessage 3 message s).
Proof.
  intros s message. split; [ reflexivity | ].
  apply (clock_monotone_between_flushes 3 message s). reflexivity.
Defined.

End SchedulerFacts.

(** ** The transcription buffers *)

Module TranscriptFacts.
Import AudioCodec App.

Lemma truthy_rev (s : jsstring) : truthy (rev s) = truthy s.
Proof.
  destruct s as [| c r]; [ reflexivity | ].
  cbn [rev truthy]. destruct (rev r); reflexivity.
Qed.

Lemma truthy_trimStart (s : jsstring) : truthy (trimStart s) = has_text s.
Proof.
  induction s as [| c r IH]; [ reflexivity | ].
  cbn [trimStart has_text existsb].
  destruct (is_white_space c); [ exact IH | reflexivity ].
Qed.

Lemma has_text_app (s t : jsstring) :
  has_text (s ++ t) = has_text s || has_text t.
Proof. apply existsb_app. Qed.

Lemma has_text_rev (s : jsstring) : has_text (rev s) = has_text s.
Proof.
  induction s as [| c r IH]; [ reflexivity | ].
  cbn [rev]. rewrite has_text_app, IH. cbn [has_text existsb].
  rewrite orb_false_r. apply orb_comm.
Qed.

Lemma has_text_trimStart (s : jsstring) : has_text (trimStart s) = has_text s.
Proof.
  induction s as [| c r IH]; [ reflexivity | ].
  cbn [trimStart]. destruct (is_white_space c) eqn:E; [ | reflexivity ].
  rewrite IH. cbn [has_text existsb]. now rewrite E.
Qed.

(** [text.trim()] is truthy exactly when [text] is not all white space. *)
Lemma truthy_trim (s : jsstring) : truthy (trim s) = has_text s.
Proof.
  unfold trim, trimEnd.
  now rewrite truthy_rev, truthy_trimStart, has_text_rev, has_text_trimStart.
Qed.

Lemma spoken_cons_same (r : Role) (t : jsstring) (frs : list (Role * jsstring)) :
  spoken r ((r, t) :: frs) = t ++ spoken r frs.
Proof. unfold spoken. cbn. destruct r; reflexivity. Qed.

Lemma spoken_cons_user_model (t : jsstring) (frs : list (Role * jsstring)) :
  spoken user ((model, t) :: frs) = spoken user frs /\
  spoken model ((user, t) :: frs) = spoken model frs.
Proof. split; reflexivity. Qed.

(** One fragment goes to the end of its speaker's buffer. *)
Lemma fragment_step (now : Q) (r : Role) (t : jsstring) (s : State) :
  let s' := onmessage now (transcriptFragment r t) s in
  currentInputTranscriptionRef s' =
    currentInputTranscriptionRef s ++ (if isRole user r then t else []) /\
  currentOutputTranscriptionRef s' =
    currentOutputTranscriptionRef s ++ (if isRole model r then t else []) /\
  messages s' = messages s.
Proof. destruct r; cbn; now rewrite app_nil_r. Qed.

(** A run of fragments: each buffer holds what it held, then what its
    speaker sent, in arrival order. *)
Lemma fragments_accumulate (now : Q) (frs : list (Role * jsstring)) (s : State) :
  let s' := run (fragments now frs) s in
  currentInputTranscriptionRef s' =
    currentInputTranscriptionRef s ++ spoken user frs /\
  currentOutputTranscriptionRef s' =
    currentOutputTranscriptionRef s ++ spoken model frs /\
  messages s' = messages s.
Proof.
  revert s. induction frs as [| [r t] rest IH]; intros s.
  - cbn. now rewrite !app_nil_r.
  - cbn [fragments map run fold_left fst snd].
    destruct (fragment_step now r t s) as (Hin & Hout & Hmsg).
    destruct (IH (onmessage now (transcriptFragment r t) s)) as (Hin' & Hout' & Hmsg').
    unfold run, fragments in Hin', Hout', Hmsg'. cbv zeta in *.
    rewrite Hin', Hout', Hmsg', Hin, Hout, Hmsg.
    destruct r; cbn [isRole]; rewrite ?app_nil_r, <- ?app_assoc;
      repeat split; f_equal.
Qed.

(** The handling of one [turnComplete] event. *)
Lemma turnComplete_step (now : Q) (s : State) :
  let s' := onmessage now turnCompleteEvent s in
  messages s' =
    messages s ++ utterance user (currentInputTranscriptionRef s)
               ++ utterance model (currentOutputTranscriptionRef s) /\
  currentInputTranscriptionRef s' = [] /\
  currentOutputTranscriptionRef s' = [] /\
  streamingUserText s' = [] /\
  streamingModelText s' = [].
Proof.
  unfold onmessage, turnCompleteEvent. cbn [serverContent].
  unfold handleTranscription, handleAudio, handleInterrupted, handleTurnComplete.
  cbn [outputTranscription inputTranscription turnComplete interrupted
       base64Audio modelTurn].
  cbv zeta. cbn [currentInputTranscriptionRef currentOutputTranscriptionRef
                 set_streamingUserText set_streamingModelText
                 set_currentInputTranscriptionRef
                 set_currentOutputTranscriptionRef messages].
  rewrite !truthy_trim. unfold utterance.
  destruct (has_text (currentInputTranscriptionRef s));
    destruct (has_text (currentOutputTranscriptionRef s));
    cbn; rewrite ?app_nil_r, <- ?app_assoc; repeat split.
Qed.

(** The claim C3 as it is worded fails: a buffer that holds only white
    space is not empty, yet no Utterance is emitted for it. *)
Lemma blank_buffer_emits_no_utterance :
  let s := onmessage 0 (transcriptFragment user [32]%N) initial in
  let s' := onmessage 0 turnCompleteEvent s in
  currentInputTranscriptionRef s = [32]%N /\
  truthy (currentInputTranscriptionRef s) = true /\
  messages s' = [] /\
  messages s' <>
    messages s ++ utteranceIfNonEmpty user (currentInputTranscriptionRef s)
               ++ utteranceIfNonEmpty model (currentOutputTranscriptionRef s).
Proof. cbv zeta. repeat split. vm_compute. discriminate. Qed.

(** C3, amended.  After any fragments, [turnComplete] appends one
    Utterance per speaker whose buffered text has a character that is
    not white space, the user's first and the model's second whatever
    the arrival order; its text is the buffer as it stands, the
    speaker's fragments concatenated in arrival order; both buffers and
    both live texts are cleared. *)
Theorem turnComplete_emits_user_then_model
  (now : Q) (frs : list (Role * jsstring)) (s : State) :
  let s1 := run (fragments now frs) s in
  let s' := onmessage now turnCompleteEvent s1 in
  let userText := currentInputTranscriptionRef s ++ spoken user frs in
  let modelText := currentOutputTranscriptionRef s ++ spoken model frs in
  currentInputTranscriptionRef s1 = userText /\
  currentOutputTranscriptionRef s1 = modelText /\
  messages s' = messages s ++ utterance user userText ++ utterance model modelText /\
  currentInputTranscriptionRef s' = [] /\
  currentOutputTranscriptionRef s' = [] /\
  streamingUserText s' = [] /\
  streamingModelText s' = [].
Proof.
  cbv zeta.
  destruct (fragments_accumulate now frs s) as (Hin & Hout & Hmsg).
  destruct (turnComplete_step now (run (fragments now frs) s))
    as (Hm & Hi & Ho & Hsu & Hsm).
  cbv zeta in *. rewrite Hin, Hout, Hmsg in Hm.
  repeat split; assumption.
Qed.

(** The scenarios of the specification: interleaved fragments, and a
    model-only turn spelling Hello. *)
Example turn_integrity :
  messages (onmessage 0 turnCompleteEvent
              (run (fragments 0 [ (user, [97]%N); (model, [98]%N); (user, [99]%N) ])
                   initial)) =
  [ mkAudioMessage user (Some [97; 99]%N); mkAudioMessage model (Some [98]%N) ].
Proof. reflexivity. Qed.

Example model_only_turn :
  messages (onmessage 0 turnCompleteEvent
              (run (fragments 0 [ (model, [72; 101; 108]%N); (model, [108; 111]%N) ])
                   initial)) =
  [ mkAudioMessage model (Some [72; 101; 108; 108; 111]%N) ].
Proof. reflexivity. Qed.

(** C10.  When a message carries both an output and an input
    transcription, the input one is not read: the message is handled as
    if it carried the output transcription only, and, when it carries
    nothing else, the model buffer and live text grow by the output
    fragment while the user buffer and live text stay as they are. *)
Theorem input_fragment_dropped_when_output_present
  (now : Q) (outText inText : jsstring) (tc : bool)
  (mt : option (list Part)) (intr : bool) (s : State) :
  onmessage now
    (mkMessage (Some (mkServerContent (Some outText) (Some inText) tc mt intr))) s =
  onmessage now
    (mkMessage (Some (mkServerContent (Some outText) None tc mt intr))) s /\
  let s' := onmessage now
              (mkMessage (Some (mkServerContent (Some outText) (Some inText)
                                                false None false))) s in
  currentOutputTranscriptionRef s' = currentOutputTranscriptionRef s ++ outText /\
  streamingModelText s' = currentOutputTranscriptionRef s ++ outText /\
  currentInputTranscriptionRef s' = currentInputTranscriptionRef s /\
  streamingUserText s' = streamingUserText s /\
  messages s' = messages s.
Proof. split; [ reflexivity | cbn; repeat split ]. Qed.

End TranscriptFacts.

(** ** Teardown and the capture callback *)

Module SessionFacts.
Import AudioCodec App.

(** What [disconnect] leaves, whatever refs were set. *)
Lemma disconnect_fields (s : State) :
  let s' := disconnect s in
  messages s' = messages s /\
  currentInputTranscriptionRef s' = [] /\
  currentOutputTranscriptionRef s' = [] /\
  streamingUserText s' = [] /\
  streamingModelText s' = [] /\
  connectionState s' = disconnected /\
  sourcesRef s' = [] /\
  audioLog s' = audioLog s ++ map Stop (sourcesRef s) /\
  nextStartTimeRef s' = nextStartTimeRef s /\
  isMicMuted s' = isMicMuted s.
Proof.
  destruct s as [cs mu ms su sm er ac ic sp ns so ci co sr sc pr al sf ni].
  unfold disconnect. cbn.
  destruct sr, sp, ac, ic; cbn; repeat split.
Qed.

(** C8.  Teardown in the middle of a turn, by [disconnect] or by the
    session's [onclose] or [onerror], adds nothing to the transcript and
    empties both buffers and both live texts; a [turnComplete] handled
    afterwards finds nothing to emit. *)
Theorem teardown_drops_unfinished_turn (now : Q) (s : State) :
  Forall (fun s' =>
            messages s' = messages s /\
            currentInputTranscriptionRef s' = [] /\
            currentOutputTranscriptionRef s' = [] /\
            streamingUserText s' = [] /\
            streamingModelText s' = [] /\
            connectionState s' = disconnected /\
            messages (onmessage now turnCompleteEvent s') = messages s)
         [ disconnect s; onclose s; onerror s ].
Proof.
  assert (forall s0, messages s0 = messages s ->
            let s' := disconnect s0 in
            messages s' = messages s /\
            currentInputTranscriptionRef s' = [] /\
            currentOutputTranscriptionRef s' = [] /\
            streamingUserText s' = [] /\
            streamingModelText s' = [] /\
            connectionState s' = disconnected /\
            messages (onmessage now turnCompleteEvent s') = messages s) as H.
  { intros s0 H0. cbv zeta.
    destruct (disconnect_fields s0) as (Hm & Hi & Ho & Hu & Hmo & Hc & _).
    cbv zeta in *.
    destruct (TranscriptFacts.turnComplete_step now (disconnect s0)) as (Ht & _).
    cbv zeta in Ht. rewrite Hi, Ho, Hm in Ht.
    change (utterance user []) with (@nil AudioMessage) in Ht.
    change (utterance model []) with (@nil AudioMessage) in Ht.
    rewrite !app_nil_r in Ht.
    repeat split; congruence. }
  constructor; [ exact (H s eq_refl) | ].
  constructor; [ exact (H s eq_refl) | ].
  constructor; [ exact (H (set_error (Some ConnectionError) s) eq_refl) | ].
  constructor.
Qed.

(** The scenario of the specification: [stop()] with a buffered model
    text. *)
Example stop_mid_turn :
  let s := run (fragments 0 [ (model, [72; 105]%N) ]) (onopen (connect true initial)) in
  currentOutputTranscriptionRef s = [72; 105]%N /\
  messages (disconnect s) = [] /\
  currentOutputTranscriptionRef (disconnect s) = [] /\
  messages (onmessage 0 turnCompleteEvent (disconnect s)) = [].
Proof. vm_compute. repeat split. Qed.

(** C6.  [disconnect] stops every in-flight segment and empties the
    in-flight set, but it leaves [nextStartTimeRef] at its value: after
    one chunk played at time 5 the clock is past 5 and stays there
    through the teardown, so the first chunk of the next session, handled
    at time 0 of a fresh audio context, is scheduled after 5. *)
Theorem disconnect_keeps_stale_clock :
  (forall s,
     sourcesRef (disconnect s) = [] /\
     audioLog (disconnect s) = audioLog s ++ map Stop (sourcesRef s) /\
     nextStartTimeRef (disconnect s) = nextStartTimeRef s) /\
  let s1 := onmessage 5 (audioChunk [0; 0; 0; 0]%Z) (onopen (connect true initial)) in
  let s2 := disconnect s1 in
  let s3 := onmessage 0 (audioChunk [0; 0]%Z) (onopen (connect true s2)) in
  sourcesRef s1 = [0%nat] /\
  sourcesRef s2 = [] /\
  audioLog s2 = [ Start 0%nat 5 (2 # 24000); Stop 0%nat ] /\
  nextStartTimeRef s2 = 5 + (2 # 24000) /\
  ~ nextStartTimeRef s2 == 0 /\
  audioLog s3 = audioLog s2 ++ [ Start 1%nat (5 + (2 # 24000)) (1 # 24000) ].
Proof.
  split.
  - intros s. destruct (disconnect_fields s) as (_ & _ & _ & _ & _ & _ & H).
    cbv zeta in H. destruct H as (H1 & H2 & H3 & _). auto.
  - vm_compute. repeat split. intros H. discriminate H.
Qed.

(** The interruption branch, next to it, does reset the clock. *)
Example interrupted_resets_where_disconnect_does_not :
  let s1 := onmessage 5 (audioChunk [0; 0; 0; 0]%Z) (onopen (connect true initial)) in
  nextStartTimeRef (onmessage 6 interruptedEvent s1) = 0 /\
  nextStartTimeRef (disconnect s1) = 5 + (2 # 24000).
Proof. vm_compute. split; reflexivity. Qed.

(** The running capture callback tests the [isMicMuted] it captured:
    toggling the flag commutes with handling a buffer. *)
Lemma toggleMute_does_not_reach_capture (inputData : list Q) (s : State) :
  onaudioprocess inputData (toggleMute s) = toggleMute (onaudioprocess inputData s).
Proof.
  unfold onaudioprocess, toggleMute. cbn.
  destruct (scriptProcessor s) as [[|] |]; try reflexivity.
  destruct (sessionPromiseRef s); reflexivity.
Qed.

(** C5.  In a session opened unmuted, a buffer captured after the mute
    toggle is still encoded and sent while the flag reads muted; and in
    a session opened muted, a buffer captured after unmuting is still
    discarded. *)
Theorem mute_toggle_not_seen_by_capture (inputData : list Q) :
  (let s := toggleMute (onopen (connect true initial)) in
   isMicMuted s = true /\
   sentFrames (onaudioprocess inputData s) = [ encode inputData ]) /\
  (let s0 := disconnect (toggleMute (onopen (connect true initial))) in
   let s := toggleMute (onopen (connect true s0)) in
   isMicMuted s0 = true /\ isMicMuted s = false /\
   sentFrames (onaudioprocess inputData s) = []).
Proof. cbv zeta. cbn. repeat split. Qed.

(** What the capture callback does do: with the flag captured as muted
    nothing is sent, and the callback stays installed. *)
Lemma capture_discards_when_captured_muted (inputData : list Q) (s : State) :
  scriptProcessor s = Some true ->
  onaudioprocess inputData s = s.
Proof. intros H. unfold onaudioprocess. now rewrite H. Qed.

End SessionFacts.

(** ** Invariants of a session *)

Module InvariantFacts.
Import AudioCodec App Session.

Ltac open_state s :=
  destruct s as [cs mu ms su sm er ac ic sp ns so ci co sr sc pr al sf ni];
  cbn in *.

(** A property kept by each branch of [onmessage] is kept by it. *)
Lemma onmessage_preserves (P : State -> Prop) :
  (forall sc s, P s -> P (handleTranscription sc s)) ->
  (forall sc s, P s -> P (handleTurnComplete sc s)) ->
  (forall now sc s, P s -> P (fst (handleAudio now sc s))) ->
  (forall sc s, P s -> P (handleInterrupted sc s)) ->
  forall now message s, P s -> P (onmessage now message s).
Proof.
  intros Ht Hc Ha Hi now message s Hs. unfold onmessage.
  destruct (serverContent message) as [sc |]; [ | exact Hs ].
  pose proof (Ha now sc _ (Hc sc _ (Ht sc _ Hs))) as H.
  destruct (handleAudio now sc (handleTurnComplete sc (handleTranscription sc s)))
    as [s3 [|]]; cbn [fst] in H; [ apply Hi | ]; exact H.
Qed.

Lemma replay_preserves (P : State -> Prop) :
  (forall e s, P s -> P (handle e s)) ->
  forall events s, P s -> P (replay events s).
Proof.
  intros Hstep events. unfold replay.
  induction events as [| e rest IH]; intros s Hs; cbn [fold_left].
  - exact Hs.
  - apply IH, Hstep, Hs.
Qed.

Lemma startedIds_app (l1 l2 : list AudioOp) :
  startedIds (l1 ++ l2) = startedIds l1 ++ startedIds l2.
Proof.
  induction l1 as [| [src w d | src] rest IH]; cbn; [ reflexivity | | exact IH ].
  now rewrite IH.
Qed.

Lemma stoppedIds_app (l1 l2 : list AudioOp) :
  stoppedIds (l1 ++ l2) = stoppedIds l1 ++ stoppedIds l2.
Proof.
  induction l1 as [| [src w d | src] rest IH]; cbn; [ reflexivity | exact IH | ].
  now rewrite IH.
Qed.

Lemma startedIds_stops (l : list SourceId) : startedIds (map Stop l) = [].
Proof. induction l; cbn; auto. Qed.

Lemma stoppedIds_stops (l : list SourceId) : stoppedIds (map Stop l) = l.
Proof. induction l as [| a l IH]; cbn; [ reflexivity | now rewrite IH ]. Qed.

Lemma orderly_weaken (log : list AudioOp) (st st' : list SourceId) :
  incl st st' -> orderly st log -> orderly st' log.
Proof.
  revert st st'. induction log as [| [src w d | src] rest IH]; intros st st' Hincl H.
  - exact I.
  - cbn in *. eapply IH; [ | exact H ].
    intros x [-> | Hx]; [ now left | right; now apply Hincl ].
  - cbn in *. destruct H as [Hin H]. split; [ now apply Hincl | eauto ].
Qed.

Lemma orderly_app (l1 l2 : list AudioOp) (st : list SourceId) :
  orderly st l1 ->
  orderly (startedIds l1 ++ st) l2 ->
  orderly st (l1 ++ l2).
Proof.
  revert st. induction l1 as [| [src w d | src] rest IH]; intros st H1 H2.
  - exact H2.
  - cbn in *. apply IH; [ exact H1 | ].
    eapply orderly_weaken; [ | exact H2 ].
    intros x [-> | Hx]; [ apply in_or_app; right; now left | ].
    apply in_app_or in Hx. apply in_or_app.
    destruct Hx as [Hx | Hx]; [ now left | right; now right ].
  - cbn in *. destruct H1 as [Hin H1]. split; [ exact Hin | now apply IH ].
Qed.

Lemma orderly_stops (l st : list SourceId) :
  incl l st -> orderly st (map Stop l).
Proof.
  induction l as [| a l IH]; intros Hincl; cbn; [ exact I | ].
  split; [ apply Hincl; now left | apply IH; intros x Hx; apply Hincl; now right ].
Qed.

Lemma orderly_stopped (log : list AudioOp) (st : list SourceId) :
  orderly st log ->
  forall source, In source (stoppedIds log) ->
    In source st \/ In source (startedIds log).
Proof.
  revert st. induction log as [| [src w d | src] rest IH]; intros st H source Hin.
  - destruct Hin.
  - cbn in *. destruct (IH _ H source Hin) as [[-> | Hst] | Hr]; auto.
  - cbn in *. destruct H as [Hst H]. destruct Hin as [-> | Hin]; [ now left | ].
    destruct (IH _ H source Hin); auto.
Qed.

(** Soundness depends on the three playback fields only. *)
Lemma playbackSound_ext (s s' : State) :
  sourcesRef s' = sourcesRef s -> audioLog s' = audioLog s ->
  nextSourceId s' = nextSourceId s ->
  playbackSound s -> playbackSound s'.
Proof. unfold playbackSound. intros -> -> ->. auto. Qed.

(** Stopping every in-flight source and clearing the set. *)
Lemma playbackSound_flush (s s' : State) :
  sourcesRef s' = [] ->
  audioLog s' = audioLog s ++ map Stop (sourcesRef s) ->
  nextSourceId s' = nextSourceId s ->
  playbackSound s -> playbackSound s'.
Proof.
  unfold playbackSound. intros -> -> -> (Hnd & Hin & Hlt & Hs & Hp & Ho).
  rewrite startedIds_app, stoppedIds_app, startedIds_stops, stoppedIds_stops,
    app_nil_r.
  refine (conj _ (conj _ (conj Hlt (conj Hs (conj _ _))))).
  - constructor.
  - intros source [].
  - clear - Hnd Hin Hp.
    induction (stoppedIds (audioLog s)) as [| a l IH]; [ exact Hnd | ].
    cbn. inversion Hp; subst. constructor.
    + intros Hx. apply in_app_or in Hx. destruct Hx as [Hx | Hx]; [ auto | ].
      apply Hin in Hx. destruct Hx as [_ Hx]. apply Hx. now left.
    + apply IH; [ | assumption ].
      intros source Hsrc. destruct (Hin source Hsrc) as [Hst Hns].
      split; [ exact Hst | intros Hx; apply Hns; now right ].
  - apply orderly_app; [ exact Ho | ].
    apply orderly_stops. intros x Hx. apply in_or_app. left. now apply Hin.
Qed.

(** Starting a fresh source and adding it to the set. *)
Lemma playbackSound_enqueue (s s' : State) (when d : Q) :
  sourcesRef s' = sourcesRef s ++ [nextSourceId s] ->
  audioLog s' = audioLog s ++ [Start (nextSourceId s) when d] ->
  nextSourceId s' = S (nextSourceId s) ->
  playbackSound s -> playbackSound s'.
Proof.
  unfold playbackSound. intros -> -> -> (Hnd & Hin & Hlt & Hs & Hp & Ho).
  rewrite startedIds_app, stoppedIds_app. cbn [startedIds stoppedIds].
  rewrite app_nil_r.
  assert (~ In (nextSourceId s) (startedIds (audioLog s))) as Hfresh.
  { intros Hx. apply Hlt in Hx. lia. }
  refine (conj _ (conj _ (conj _ (conj _ (conj Hp _))))).
  - apply NoDup_app; [ exact Hnd | repeat constructor; intros [] | ].
    intros x Hx [<- | []]. apply Hfresh. now apply Hin.
  - intros source H. apply in_app_or in H. split.
    + apply in_or_app.
      destruct H as [H | [<- | []]]; [ left; now apply Hin | right; now left ].
    + intros Hx.
      destruct H as [H | [<- | []]]; [ now apply (Hin source) | ].
      destruct (orderly_stopped _ _ Ho _ Hx) as [[] | Hst]. now apply Hfresh.
  - intros source Hx. apply in_app_or in Hx.
    destruct Hx as [Hx | [<- | []]]; [ apply Hlt in Hx; lia | lia ].
  - apply NoDup_app; [ exact Hs | repeat constructor; intros [] | ].
    intros x Hx [<- | []]. now apply Hfresh.
  - apply orderly_app; [ exact Ho | exact I ].
Qed.

(** What the two transcription branches leave alone. *)
Lemma handleTranscription_frame (sc : ServerContent) (s : State) :
  let s' := handleTranscription sc s in
  sourcesRef s' = sourcesRef s /\ audioLog s' = audioLog s /\
  nextSourceId s' = nextSourceId s /\
  nextStartTimeRef s' = nextStartTimeRef s /\
  audioContextRef s' = audioContextRef s /\
  messages s' = messages s /\ sentFrames s' = sentFrames s.
Proof.
  unfold handleTranscription.
  destruct (outputTranscription sc), (inputTranscription sc); cbn; repeat split.
Qed.

Lemma handleTurnComplete_frame (sc : ServerContent) (s : State) :
  let s' := handleTurnComplete sc s in
  sourcesRef s' = sourcesRef s /\ audioLog s' = audioLog s /\
  nextSourceId s' = nextSourceId s /\
  nextStartTimeRef s' = nextStartTimeRef s /\
  audioContextRef s' = audioContextRef s /\
  sentFrames s' = sentFrames s.
Proof.
  unfold handleTurnComplete.
  destruct (turnComplete sc); [ | cbn; repeat split ].
  cbv zeta.
  destruct (truthy (trim (currentInputTranscriptionRef s)));
    destruct (truthy (trim (currentOutputTranscriptionRef s)));
    cbn; repeat split.
Qed.

(** The audio branch either does nothing or enqueues one source. *)
Lemma handleAudio_cases (now : Q) (sc : ServerContent) (s : State) :
  fst (handleAudio now sc s) = s \/
  exists b bs,
    base64Audio sc = Some (b :: bs) /\ audioContextRef s = true /\
    let s' := fst (handleAudio now sc s) in
    let startTime := Qmax (nextStartTimeRef s) now in
    let d := duration (decode (b :: bs)) in
    snd (handleAudio now sc s) = true /\
    audioLog s' = audioLog s ++ [Start (nextSourceId s) startTime d] /\
    nextStartTimeRef s' = startTime + d /\
    nextSourceId s' = S (nextSourceId s) /\
    sourcesRef s' =
      (if existsb (Nat.eqb (nextSourceId s)) (sourcesRef s)
       then sourcesRef s else sourcesRef s ++ [nextSourceId s]) /\
    audioContextRef s' = true /\
    messages s' = messages s /\
    sentFrames s' = sentFrames s /\
    streamingUserText s' = streamingUserText s /\
    streamingModelText s' = streamingModelText s /\
    currentInputTranscriptionRef s' = currentInputTranscriptionRef s /\
    currentOutputTranscriptionRef s' = currentOutputTranscriptionRef s.
Proof.
  unfold handleAudio.
  destruct (base64Audio sc) as [[| b bs] |]; [ now left | | now left ].
  destruct (audioContextRef s) eqn:Hctx; [ | now left ].
  right. exists b, bs. cbn. rewrite Hctx. repeat split.
Qed.

Lemma handleInterrupted_cases (sc : ServerContent) (s : State) :
  handleInterrupted sc s = s \/
  interrupted sc = true /\
  let s' := handleInterrupted sc s in
  sourcesRef s' = [] /\
  audioLog s' = audioLog s ++ map Stop (sourcesRef s) /\
  nextSourceId s' = nextSourceId s /\
  nextStartTimeRef s' = 0 /\
  audioContextRef s' = audioContextRef s /\
  messages s' = messages s /\
  sentFrames s' = sentFrames s /\
  streamingUserText s' = streamingUserText s /\
  currentInputTranscriptionRef s' = currentInputTranscriptionRef s /\
  streamingModelText s' = [] /\
  currentOutputTranscriptionRef s' = [].
Proof.
  unfold handleInterrupted.
  destruct (interrupted sc); [ right | now left ].
  cbn. repeat split.
Qed.

Lemma fresh_source_not_in_flight (s : State) :
  playbackSound s ->
  existsb (Nat.eqb (nextSourceId s)) (sourcesRef s) = false.
Proof.
  intros (_ & Hin & Hlt & _).
  destruct (existsb (Nat.eqb (nextSourceId s)) (sourcesRef s)) eqn:E; [ | reflexivity ].
  apply existsb_exists in E. destruct E as (x & Hx & Heq).
  apply Nat.eqb_eq in Heq. subst x.
  apply Hin in Hx. destruct Hx as [Hx _]. apply Hlt in Hx. lia.
Qed.

(** The handlers outside [onmessage] and the teardown leave the
    playback fields alone, the clock included. *)
Lemma capture_side_frame (e : Event) (s : State) :
  match e with
  | Connect _ | Open | AudioProcess _ | ToggleMute => True
  | _ => False
  end ->
  let s' := handle e s in
  sourcesRef s' = sourcesRef s /\ audioLog s' = audioLog s /\
  nextSourceId s' = nextSourceId s /\
  nextStartTimeRef s' = nextStartTimeRef s /\
  messages s' = messages s /\
  streamingUserText s' = streamingUserText s /\
  streamingModelText s' = streamingModelText s /\
  currentInputTranscriptionRef s' = currentInputTranscriptionRef s /\
  currentOutputTranscriptionRef s' = currentOutputTranscriptionRef s.
Proof.
  destruct e as [g | | d | | | | | |]; intros []; cbn [handle].
  - unfold connect. destruct g; cbn; repeat split.
  - unfold onopen. destruct (sessionCallbacks s); cbn; repeat split.
  - unfold onaudioprocess.
    destruct (scriptProcessor s) as [[|] |], (sessionPromiseRef s);
      cbn; repeat split.
  - cbn. repeat split.
Qed.

Lemma disconnect_frame (s : State) :
  nextSourceId (disconnect s) = nextSourceId s /\
  sentFrames (disconnect s) = sentFrames s /\
  sessionPromiseRef (disconnect s) = false /\
  streamRef (disconnect s) = false /\
  audioContextRef (disconnect s) = false /\
  inputContextRef (disconnect s) = false.
Proof.
  open_state s. unfold disconnect. cbn.
  destruct sr, sp, ac, ic; cbn; repeat split.
Qed.

Lemma playbackSound_handle (e : Event) (s : State) :
  playbackSound s -> playbackSound (handle e s).
Proof.
  intros Hs.
  assert (forall s0, playbackSound s0 -> playbackSound (disconnect s0)) as Hdisc.
  { intros s0 H0.
    destruct (SessionFacts.disconnect_fields s0)
      as (_ & _ & _ & _ & _ & _ & Hsrc & Hlog & _).
    destruct (disconnect_frame s0) as (Hid & _).
    cbv zeta in *. now apply (playbackSound_flush s0). }
  destruct e as [g | | d | | now message | source | | |].
  1-4: match goal with
       | |- playbackSound (handle ?e ?s0) =>
           destruct (capture_side_frame e s0 I) as (H1 & H2 & H3 & _);
           cbv zeta in *; now apply (playbackSound_ext s0)
       end.
  - cbn [handle]. revert now message s Hs. apply onmessage_preserves.
    + intros sc s0 H0.
      destruct (handleTranscription_frame sc s0) as (H1 & H2 & H3 & _).
      cbv zeta in *. now apply (playbackSound_ext s0).
    + intros sc s0 H0.
      destruct (handleTurnComplete_frame sc s0) as (H1 & H2 & H3 & _).
      cbv zeta in *. now apply (playbackSound_ext s0).
    + intros now sc s0 H0.
      destruct (handleAudio_cases now sc s0) as [-> | (b & bs & _ & _ & H)];
        [ exact H0 | ].
      cbv zeta in H. destruct H as (_ & Hlog & _ & Hid & Hsrc & _).
      rewrite (fresh_source_not_in_flight s0 H0) in Hsrc.
      now apply (playbackSound_enqueue s0 _ _ _ Hsrc Hlog Hid).
    + intros sc s0 H0.
      destruct (handleInterrupted_cases sc s0) as [-> | (_ & H)]; [ exact H0 | ].
      cbv zeta in H. destruct H as (Hsrc & Hlog & Hid & _).
      now apply (playbackSound_flush s0).
  - cbn [handle]. unfold onended.
    destruct Hs as (Hnd & Hin & Hrest).
    refine (conj _ (conj _ Hrest)); cbn.
    + now apply NoDup_filter.
    + intros x Hx. apply filter_In in Hx. now apply Hin.
  - now apply Hdisc.
  - now apply Hdisc.
  - cbn [handle]. unfold onerror. apply Hdisc.
    now apply (playbackSound_ext s).
Qed.

(** X1.  Whatever happens in a session, [stop] is only ever called on a
    source that was started, after its [start], and at most once; no
    source is started twice; and whatever is in the in-flight set was
    started and has not been stopped. *)
Theorem stop_only_after_start_and_once (events : list Event) :
  let s := replay events initial in
  orderly [] (audioLog s) /\
  NoDup (stoppedIds (audioLog s)) /\
  NoDup (startedIds (audioLog s)) /\
  incl (stoppedIds (audioLog s)) (startedIds (audioLog s)) /\
  NoDup (sourcesRef s) /\
  (forall source, In source (sourcesRef s) ->
     In source (startedIds (audioLog s)) /\
     ~ In source (stoppedIds (audioLog s))).
Proof.
  assert (playbackSound (replay events initial)) as H.
  { apply replay_preserves; [ apply playbackSound_handle | ].
    unfold playbackSound. cbn.
    refine (conj (NoDup_nil _)
              (conj _ (conj _ (conj (NoDup_nil _) (conj (NoDup_nil _) I)))));
      intros ? []. }
  destruct H as (Hnd & Hin & Hlt & Hs & Hp & Ho).
  cbv zeta. refine (conj Ho (conj Hp (conj Hs (conj _ (conj Hnd Hin))))).
  intros x Hx. destruct (orderly_stopped _ _ Ho x Hx) as [[] | H]. exact H.
Qed.

Lemma stop_only_after_start_and_once_witness :
  let s := replay [ Connect true; Open; Message 0 (audioChunk [0; 0]%Z) ] initial in
  In 0%nat (sourcesRef s) /\
  In 0%nat (startedIds (audioLog s)) /\
  ~ In 0%nat (stoppedIds (audioLog s)).
Proof.
  intros s.
  destruct (stop_only_after_start_and_once
              [ Connect true; Open; Message 0 (audioChunk [0; 0]%Z) ])
    as (_ & _ & _ & _ & _ & H).
  assert (In 0%nat (sourcesRef s)) as Hin by (vm_compute; left; reflexivity).
  split; [ exact Hin | apply H; exact Hin ].
Defined.

Lemma clockSound_handle (e : Event) (s : State) :
  clockSound s -> clockSound (handle e s).
Proof.
  intros Hs.
  assert (forall s0 s1,
            nextStartTimeRef s1 = nextStartTimeRef s0 ->
            scheduled (audioLog s1) = scheduled (audioLog s0) ->
            clockSound s0 -> clockSound s1) as Hext.
  { unfold clockSound. intros s0 s1 -> ->. auto. }
  assert (forall s0, clockSound s0 -> clockSound (disconnect s0)) as Hdisc.
  { intros s0 H0.
    destruct (SessionFacts.disconnect_fields s0)
      as (_ & _ & _ & _ & _ & _ & _ & Hlog & Hclock & _).
    cbv zeta in *. apply (Hext s0); [ exact Hclock | | exact H0 ].
    rewrite Hlog, SchedulerFacts.scheduled_app, SchedulerFacts.scheduled_stops.
    apply app_nil_r. }
  destruct e as [g | | d | | now message | source | | |].
  1-4: match goal with
       | |- clockSound (handle ?e ?s0) =>
           destruct (capture_side_frame e s0 I) as (_ & H2 & _ & H4 & _);
           cbv zeta in *; apply (Hext s0); [ exact H4 | now rewrite H2 | exact Hs ]
       end.
  - cbn [handle]. revert now message s Hs. apply onmessage_preserves.
    + intros sc s0 H0.
      destruct (handleTranscription_frame sc s0) as (_ & H2 & _ & H4 & _).
      cbv zeta in *. apply (Hext s0); [ exact H4 | now rewrite H2 | exact H0 ].
    + intros sc s0 H0.
      destruct (handleTurnComplete_frame sc s0) as (_ & H2 & _ & H4 & _).
      cbv zeta in *. apply (Hext s0); [ exact H4 | now rewrite H2 | exact H0 ].
    + intros now sc s0 [Hc Hl].
      destruct (handleAudio_cases now sc s0) as [-> | (b & bs & _ & _ & H)];
        [ now split | ].
      cbv zeta in H. destruct H as (_ & Hlog & Hclock & _).
      pose proof (Q.le_max_l (nextStartTimeRef s0) now) as Hmax.
      pose proof (SchedulerFacts.duration_nonneg (decode (b :: bs))) as Hd.
      split.
      * rewrite Hclock. lra.
      * rewrite Hlog, SchedulerFacts.scheduled_app. apply Forall_app.
        split; [ exact Hl | ]. cbn. constructor; [ cbn; lra | constructor ].
    + intros sc s0 [Hc Hl].
      destruct (handleInterrupted_cases sc s0) as [-> | (_ & H)]; [ now split | ].
      cbv zeta in H. destruct H as (_ & Hlog & _ & Hclock & _).
      split; [ rewrite Hclock; apply Qle_refl | ].
      rewrite Hlog, SchedulerFacts.scheduled_app, SchedulerFacts.scheduled_stops,
        app_nil_r. exact Hl.
  - exact Hs.
  - now apply Hdisc.
  - now apply Hdisc.
  - cbn [handle]. unfold onerror. apply Hdisc. exact Hs.
Qed.

(** X2.  Whatever happens in a session, and whatever times the audio context
    reports, no source is ever started at a negative time, and the
    clock is never negative. *)
Theorem start_time_never_negative (events : list Event) :
  let s := replay events initial in
  0 <= nextStartTimeRef s /\
  Forall (fun seg => 0 <= fst seg) (scheduled (audioLog s)).
Proof.
  apply (replay_preserves clockSound); [ apply clockSound_handle | ].
  split; [ apply Qle_refl | constructor ].
Qed.

Lemma liveTextSound_handle (e : Event) (s : State) :
  liveTextSound s -> liveTextSound (handle e s).
Proof.
  intros Hs.
  assert (forall s0, liveTextSound (disconnect s0)) as Hdisc.
  { intros s0.
    destruct (SessionFacts.disconnect_fields s0) as (_ & Hi & Ho & Hu & Hm & _).
    cbv zeta in *. unfold liveTextSound. now rewrite Hi, Ho, Hu, Hm. }
  destruct e as [g | | d | | now message | source | | |].
  1-4: match goal with
       | |- liveTextSound (handle ?e ?s0) =>
           destruct (capture_side_frame e s0 I)
             as (_ & _ & _ & _ & _ & H6 & H7 & H8 & H9);
           cbv zeta in *; unfold liveTextSound in *;
           rewrite H6, H7, H8, H9; exact Hs
       end.
  - cbn [handle]. revert now message s Hs. apply onmessage_preserves.
    + intros sc s0 [Hu Hm]. unfold handleTranscription, liveTextSound.
      destruct (outputTranscription sc), (inputTranscription sc); cbn; auto.
    + intros sc s0 [Hu Hm]. unfold handleTurnComplete, liveTextSound.
      destruct (turnComplete sc); [ | auto ]. cbv zeta.
      destruct (truthy (trim (currentInputTranscriptionRef s0)));
        destruct (truthy (trim (currentOutputTranscriptionRef s0)));
        cbn; auto.
    + intros now sc s0 [Hu Hm].
      destruct (handleAudio_cases now sc s0) as [-> | (b & bs & _ & _ & H)];
        [ now split | ].
      cbv zeta in H.
      destruct H as (_ & _ & _ & _ & _ & _ & _ & _ & H1 & H2 & H3 & H4).
      unfold liveTextSound. now rewrite H1, H2, H3, H4.
    + intros sc s0 [Hu Hm].
      destruct (handleInterrupted_cases sc s0) as [-> | (_ & H)]; [ now split | ].
      cbv zeta in H.
      destruct H as (_ & _ & _ & _ & _ & _ & _ & H1 & H2 & H3 & H4).
      unfold liveTextSound. now rewrite H1, H2, H3, H4.
  - exact Hs.
  - apply Hdisc.
  - apply Hdisc.
  - cbn [handle]. unfold onerror. apply Hdisc.
Qed.

(** X3.  Whatever happens in a session, the live text shown for each speaker
    is exactly what that speaker's transcription buffer holds. *)
Theorem live_text_is_buffer (events : list Event) :
  let s := replay events initial in
  streamingUserText s = currentInputTranscriptionRef s /\
  streamingModelText s = currentOutputTranscriptionRef s.
Proof.
  apply (replay_preserves liveTextSound); [ apply liveTextSound_handle | ].
  split; reflexivity.
Qed.

(** One event adds at most two entries to the transcript, after the
    ones it holds, and each has visible text. *)
Lemma transcript_grows_by_handle (e : Event) (s : State) :
  exists added,
    messages (handle e s) = messages s ++ added /\
    forallb visible added = true /\ (length added <= 2)%nat.
Proof.
  assert (forall s0 s1, messages s1 = messages s0 ->
            exists added, messages s1 = messages s0 ++ added /\
              forallb visible added = true /\ (length added <= 2)%nat) as Hsame.
  { intros s0 s1 ->. exists []. rewrite app_nil_r. cbn. auto. }
  destruct e as [g | | d | | now message | source | | |].
  1-4: match goal with
       | |- context [handle ?e ?s0] =>
           destruct (capture_side_frame e s0 I) as (_ & _ & _ & _ & H5 & _);
           cbv zeta in *; now apply Hsame
       end.
  - cbn [handle]. unfold onmessage.
    destruct (serverContent message) as [sc |]; [ | now apply Hsame ].
    destruct (handleTranscription_frame sc s) as (_ & _ & _ & _ & _ & Hmt & _).
    cbv zeta in Hmt. rewrite <- Hmt.
    set (s1 := handleTranscription sc s) in *. clearbody s1.
    assert (exists added,
              messages (handleTurnComplete sc s1) = messages s1 ++ added /\
              forallb visible added = true /\ (length added <= 2)%nat) as Htc.
    { unfold handleTurnComplete.
      destruct (turnComplete sc); [ | now apply Hsame ]. cbv zeta.
      rewrite !TranscriptFacts.truthy_trim.
      destruct (has_text (currentInputTranscriptionRef s1)) eqn:Eu;
        destruct (has_text (currentOutputTranscriptionRef s1)) eqn:Em; cbn.
      - eexists. rewrite <- app_assoc. split; [ reflexivity | ].
        cbn. rewrite Eu, Em. auto.
      - eexists. split; [ reflexivity | ]. cbn. rewrite Eu. auto.
      - eexists. split; [ reflexivity | ]. cbn. rewrite Em. auto.
      - exists []. rewrite app_nil_r. cbn. auto. }
    destruct Htc as (added & Hadd & Hvis & Hlen).
    exists added. rewrite <- Hadd. split; [ | auto ].
    set (s2 := handleTurnComplete sc s1) in *. clearbody s2.
    destruct (handleAudio_cases now sc s2) as [Hnone | (b & bs & _ & _ & H)].
    + destruct (handleAudio now sc s2) as [s3 [|]]; cbn [fst] in Hnone; subst s3;
        [ | reflexivity ].
      destruct (handleInterrupted_cases sc s2) as [-> | (_ & H)]; [ reflexivity | ].
      cbv zeta in H. now destruct H as (_ & _ & _ & _ & _ & Hm & _).
    + cbv zeta in H.
      destruct H as (Hcont & _ & _ & _ & _ & _ & Hm & _).
      destruct (handleAudio now sc s2) as [s3 c]. cbn [fst snd] in *. subst c.
      rewrite <- Hm.
      destruct (handleInterrupted_cases sc s3) as [-> | (_ & H)]; [ reflexivity | ].
      cbv zeta in H. now destruct H as (_ & _ & _ & _ & _ & Hm' & _).
  - now apply Hsame.
  - apply Hsame. now destruct (SessionFacts.disconnect_fields s) as (Hm & _).
  - apply Hsame. now destruct (SessionFacts.disconnect_fields s) as (Hm & _).
  - apply Hsame. cbn [handle]. unfold onerror.
    now destruct (SessionFacts.disconnect_fields (set_error (Some ConnectionError) s))
      as (Hm & _).
Qed.

(** X4.  Whatever happens in a session, the transcript only grows at its
    end, by at most two entries per event, and every entry the session
    adds has text with a character that is not white space. *)
Theorem transcript_append_only (events : list Event) (s : State) :
  exists added,
    messages (replay events s) = messages s ++ added /\
    forallb visible added = true /\
    (length added <= 2 * length events)%nat.
Proof.
  revert s. induction events as [| e rest IH]; intros s.
  - exists []. cbn. now rewrite app_nil_r.
  - destruct (transcript_grows_by_handle e s) as (a1 & H1 & V1 & L1).
    destruct (IH (handle e s)) as (a2 & H2 & V2 & L2).
    exists (a1 ++ a2). unfold replay in *. cbn [fold_left].
    rewrite H2, H1, <- app_assoc, forallb_app, V1, V2, length_app.
    cbn [length]. repeat split. lia.
Qed.

End InvariantFacts.

(** ** Scheduling across whole runs of messages *)

Module RunFacts.
Import AudioCodec App Session InvariantFacts.

Lemma Qmax_fed (clock now : Q) : now <= clock -> Qmax clock now = clock.
Proof.
  intros H. unfold Qmax, GenericMinMax.gmax.
  destruct (clock ?= now) eqn:E; try reflexivity.
  apply Qlt_alt in E. lra.
Qed.

(** One message that carries no interruption. *)
Lemma message_step_schedule (now : Q) (message : LiveServerMessage) (s : State) :
  audioContextRef s = true -> isInterrupted message = false ->
  let s' := onmessage now message s in
  scheduled (audioLog s') =
    scheduled (audioLog s) ++ schedule (nextStartTimeRef s) (enqueued [(now, message)]) /\
  nextStartTimeRef s' = clockAfter (nextStartTimeRef s) (enqueued [(now, message)]) /\
  audioContextRef s' = true.
Proof.
  intros Hctx Hint. unfold onmessage, enqueued, isInterrupted in *.
  cbn [flat_map fst snd]. rewrite app_nil_r.
  destruct (serverContent message) as [sc |];
    [ | cbn; rewrite app_nil_r; auto ].
  destruct (handleTranscription_frame sc s) as (_ & Hl1 & _ & Hc1 & Hx1 & _).
  destruct (handleTurnComplete_frame sc (handleTranscription sc s))
    as (_ & Hl2 & _ & Hc2 & Hx2 & _).
  cbv zeta in *.
  set (s2 := handleTurnComplete sc (handleTranscription sc s)) in *.
  assert (audioLog s2 = audioLog s) as Hl by congruence.
  assert (nextStartTimeRef s2 = nextStartTimeRef s) as Hc by congruence.
  assert (audioContextRef s2 = true) as Hx by congruence.
  clearbody s2. clear Hl1 Hl2 Hc1 Hc2 Hx1 Hx2.
  assert (forall s3, handleInterrupted sc s3 = s3) as Hnoint
    by (intros s3; unfold handleInterrupted; now rewrite Hint).
  unfold handleAudio.
  destruct (base64Audio sc) as [[| b bs] |];
    try (rewrite Hnoint, Hl, Hc, Hx; cbn; rewrite app_nil_r; auto).
  rewrite Hx, Hnoint. cbn. rewrite Hl, Hc, Hx, SchedulerFacts.scheduled_app.
  auto.
Qed.

Lemma enqueued_cons (e : Q * LiveServerMessage) (rest : list (Q * LiveServerMessage)) :
  enqueued (e :: rest) = enqueued [e] ++ enqueued rest.
Proof. unfold enqueued. cbn [flat_map]. now rewrite app_nil_r. Qed.

Lemma schedule_app (c1 c2 : list (Q * list byte)) (clock : Q) :
  schedule clock (c1 ++ c2) = schedule clock c1 ++ schedule (clockAfter clock c1) c2 /\
  clockAfter clock (c1 ++ c2) = clockAfter (clockAfter clock c1) c2.
Proof.
  revert clock. induction c1 as [| [t bytes] rest IH]; intros clock.
  - split; reflexivity.
  - cbn [app schedule clockAfter].
    destruct (IH (Qmax clock t + duration (decode bytes))) as [-> ->].
    split; reflexivity.
Qed.

Lemma run_schedule (events : list (Q * LiveServerMessage)) (s : State) :
  audioContextRef s = true ->
  Forall (fun e => isInterrupted (snd e) = false) events ->
  let s' := run events s in
  scheduled (audioLog s') =
    scheduled (audioLog s) ++ schedule (nextStartTimeRef s) (enqueued events) /\
  nextStartTimeRef s' = clockAfter (nextStartTimeRef s) (enqueued events) /\
  audioContextRef s' = true.
Proof.
  intros Hctx Hall. revert s Hctx.
  induction Hall as [| [now message] rest Hint _ IH]; intros s Hctx.
  - cbn. rewrite app_nil_r. auto.
  - cbn [snd] in Hint.
    destruct (message_step_schedule now message s Hctx Hint) as (Hl & Hc & Hx).
    destruct (IH _ Hx) as (Hl' & Hc' & Hx'). cbv zeta in *.
    unfold run in *. cbn [fold_left fst snd].
    rewrite enqueued_cons.
    destruct (schedule_app (enqueued [(now, message)]) (enqueued rest)
                (nextStartTimeRef s)) as [-> ->].
    rewrite Hl', Hc', Hl, Hc, <- app_assoc. auto.
Qed.

(** X5.  As long as no message carries an interruption, transcription
    fragments and turn completions between the audio chunks do not
    disturb the schedule: the segments started are those of the audio
    chunks alone, back to back and never before the clock the run
    started with. *)
Theorem schedule_unaffected_by_other_messages
  (events : list (Q * LiveServerMessage)) (s : State) :
  audioContextRef s = true ->
  Forall (fun e => isInterrupted (snd e) = false) events ->
  let s' := run events s in
  scheduled (audioLog s') =
    scheduled (audioLog s) ++ schedule (nextStartTimeRef s) (enqueued events) /\
  nextStartTimeRef s' = clockAfter (nextStartTimeRef s) (enqueued events) /\
  backToBack (schedule (nextStartTimeRef s) (enqueued events)) /\
  Forall (fun seg => nextStartTimeRef s <= fst seg)
         (schedule (nextStartTimeRef s) (enqueued events)).
Proof.
  intros Hctx Hall. destruct (run_schedule events s Hctx Hall) as (Hl & Hc & _).
  cbv zeta in *.
  refine (conj Hl (conj Hc (conj _ _))).
  - apply SchedulerFacts.schedule_backToBack.
  - apply SchedulerFacts.schedule_starts_after_clock.
Qed.

Lemma schedule_unaffected_by_other_messages_witness :
  let s := set_audioContextRef true initial in
  let events := [ (0, audioChunk [0; 0; 0; 0]%Z);
                  (1 # 10, transcriptFragment model [72; 105]%N);
                  (2 # 10, audioChunk [0; 0]%Z);
                  (3 # 10, turnCompleteEvent) ] in
  let s' := run events s in
  scheduled (audioLog s') =
    scheduled (audioLog s) ++ schedule (nextStartTimeRef s) (enqueued events) /\
  nextStartTimeRef s' = clockAfter (nextStartTimeRef s) (enqueued events) /\
  backToBack (schedule (nextStartTimeRef s) (enqueued events)) /\
  Forall (fun seg => nextStartTimeRef s <= fst seg)
         (schedule (nextStartTimeRef s) (enqueued events)).
Proof.
  intros s events.
  apply (schedule_unaffected_by_other_messages events s).
  - reflexivity.
  - repeat constructor.
Defined.

Lemma schedule_fed (chunks : list (Q * list byte)) (clock : Q) :
  fed clock chunks -> schedule clock chunks = chain clock chunks.
Proof.
  revert clock. induction chunks as [| [t bytes] rest IH]; intros clock H.
  - reflexivity.
  - cbn [fed] in H. destruct H as [Ht Hrest].
    cbn [schedule chain]. rewrite (Qmax_fed clock t Ht).
    now rewrite (IH _ Hrest).
Qed.

(** X6.  When every chunk arrives before the audio scheduled so far has run
    out, playback is gapless in the strict sense: the first segment
    starts exactly at the clock and each next one exactly where its
    predecessor ends. *)
Theorem fed_chunks_play_end_to_end
  (events : list (Q * LiveServerMessage)) (s : State) :
  audioContextRef s = true ->
  Forall (fun e => isInterrupted (snd e) = false) events ->
  fed (nextStartTimeRef s) (enqueued events) ->
  scheduled (audioLog (run events s)) =
    scheduled (audioLog s) ++ chain (nextStartTimeRef s) (enqueued events).
Proof.
  intros Hctx Hall Hfed.
  destruct (run_schedule events s Hctx Hall) as (Hl & _). cbv zeta in Hl.
  now rewrite Hl, (schedule_fed _ _ Hfed).
Qed.

Lemma fed_chunks_play_end_to_end_witness :
  let s := set_nextStartTimeRef 1 (set_audioContextRef true initial) in
  let events := [ (1 # 2, audioChunk [0; 0; 0; 0]%Z);
                  (1, audioChunk [0; 0]%Z) ] in
  scheduled (audioLog (run events s)) =
    scheduled (audioLog s) ++ chain (nextStartTimeRef s) (enqueued events).
Proof.
  intros s events.
  apply (fed_chunks_play_end_to_end events s).
  - reflexivity.
  - repeat constructor.
  - cbn. repeat split; unfold Qle; cbn; lia.
Defined.

(** X7.  After a flush the next chunk is not held back by the audio that was
    cancelled: handled at a time that is not negative, it starts at
    that time. *)
Theorem chunk_after_flush_starts_now
  (t0 now : Q) (bytes : list byte) (s : State) :
  audioContextRef s = true -> bytes <> [] -> 0 <= now ->
  let s1 := onmessage t0 interruptedEvent s in
  let s2 := onmessage now (audioChunk bytes) s1 in
  exists startTime,
    audioLog s2 =
      audioLog s ++ map Stop (sourcesRef s)
                 ++ [Start (nextSourceId s) startTime (duration (decode bytes))] /\
    startTime == now /\
    nextStartTimeRef s2 == now + duration (decode bytes).
Proof.
  intros Hctx Hbytes Hnow. cbv zeta.
  set (s1 := onmessage t0 interruptedEvent s).
  assert (audioContextRef s1 = true) as Hctx1 by exact Hctx.
  destruct (SchedulerFacts.enqueue_step now bytes s1 Hctx1 Hbytes)
    as (Hlog & Hclock & _).
  cbv zeta in *.
  exists (Qmax (nextStartTimeRef s1) now).
  assert (Qmax (nextStartTimeRef s1) now == now) as Hmax
    by (apply Q.max_r; exact Hnow).
  split; [ | split; [ exact Hmax | ] ].
  - rewrite Hlog. subst s1. rewrite SchedulerFacts.interrupted_step. cbn.
    now rewrite <- app_assoc.
  - rewrite Hclock, Hmax. reflexivity.
Qed.

Lemma chunk_after_flush_starts_now_witness :
  let s := run (audioChunks [ (5, [0; 0]%Z) ]) (set_audioContextRef true initial) in
  let s1 := onmessage 6 interruptedEvent s in
  let s2 := onmessage 7 (audioChunk [0; 0; 0; 0]%Z) s1 in
  exists startTime,
    audioLog s2 =
      audioLog s ++ map Stop (sourcesRef s)
                 ++ [Start (nextSourceId s) startTime
                       (duration (decode [0; 0; 0; 0]%Z))] /\
    startTime == 7 /\
    nextStartTimeRef s2 == 7 + duration (decode [0; 0; 0; 0]%Z).
Proof.
  intros s.
  apply (chunk_after_flush_starts_now 6 7 [0; 0; 0; 0]%Z s).
  - reflexivity.
  - discriminate.
  - unfold Qle; cbn; lia.
Defined.

End RunFacts.

(** ** The life cycle of a session *)

Module LifecycleFacts.
Import AudioCodec App Session InvariantFacts.

(** The state [disconnect] leaves, written out. *)
Lemma disconnect_eq (s : State) :
  disconnect s =
  {| connectionState := disconnected; isMicMuted := isMicMuted s;
     messages := messages s; streamingUserText := []; streamingModelText := [];
     error := error s; audioContextRef := false; inputContextRef := false;
     sessionPromiseRef := false; nextStartTimeRef := nextStartTimeRef s;
     sourcesRef := []; currentInputTranscriptionRef := [];
     currentOutputTranscriptionRef := []; streamRef := false;
     sessionCallbacks := if sessionPromiseRef s then None else sessionCallbacks s;
     scriptProcessor := if inputContextRef s then None else scriptProcessor s;
     audioLog := audioLog s ++ map Stop (sourcesRef s);
     sentFrames := sentFrames s; nextSourceId := nextSourceId s |}.
Proof.
  open_state s. unfold disconnect. cbn.
  destruct sr, sp, ac, ic; reflexivity.
Qed.

(** X8.  [disconnect] is reached twice when the user hangs up: from the
    button, and again from [onclose] once the session is closed.  The
    second run changes nothing. *)
Theorem disconnect_idempotent (s : State) :
  disconnect (disconnect s) = disconnect s /\
  onclose (disconnect s) = disconnect s.
Proof.
  assert (disconnect (disconnect s) = disconnect s) as H.
  { rewrite (disconnect_eq (disconnect s)). rewrite (disconnect_eq s).
    cbn [connectionState isMicMuted messages streamingUserText
         streamingModelText error audioContextRef inputContextRef
         sessionPromiseRef nextStartTimeRef sourcesRef
         currentInputTranscriptionRef currentOutputTranscriptionRef streamRef
         sessionCallbacks scriptProcessor audioLog sentFrames nextSourceId map].
    now rewrite app_nil_r. }
  split; exact H.
Qed.

(** What an event other than [connect] does to the outgoing side when
    there is no session promise. *)
Lemma silent_without_session (e : Event) (s : State) :
  isConnect e = false -> sessionPromiseRef s = false ->
  sessionPromiseRef (handle e s) = false /\
  sentFrames (handle e s) = sentFrames s.
Proof.
  intros He Hsp.
  destruct e as [g | | d | | now message | source | | |]; try discriminate He;
    cbn [handle].
  - unfold onopen. destruct (sessionCallbacks s); cbn; auto.
  - unfold onaudioprocess. rewrite Hsp.
    destruct (scriptProcessor s) as [[|] |]; auto.
  - cbn. auto.
  - assert (forall t m s0,
              sessionPromiseRef s0 = false /\ sentFrames s0 = sentFrames s ->
              sessionPromiseRef (onmessage t m s0) = false /\
              sentFrames (onmessage t m s0) = sentFrames s) as H.
    { apply (onmessage_preserves
               (fun s0 => sessionPromiseRef s0 = false /\ sentFrames s0 = sentFrames s)).
      - intros sc s0 [H1 H2]. unfold handleTranscription.
        destruct (outputTranscription sc), (inputTranscription sc); cbn; auto.
      - intros sc s0 [H1 H2]. unfold handleTurnComplete.
        destruct (turnComplete sc); [ | auto ]. cbv zeta.
        destruct (truthy (trim (currentInputTranscriptionRef s0)));
          destruct (truthy (trim (currentOutputTranscriptionRef s0)));
          cbn; auto.
      - intros t sc s0 [H1 H2]. unfold handleAudio.
        destruct (base64Audio sc) as [[| b bs] |]; cbn; auto.
        destruct (audioContextRef s0); cbn; auto.
      - intros sc s0 [H1 H2]. unfold handleInterrupted.
        destruct (interrupted sc); cbn; auto. }
    apply H. auto.
  - cbn. auto.
  - destruct (disconnect_frame s) as (_ & H1 & H2 & _). auto.
  - destruct (disconnect_frame s) as (_ & H1 & H2 & _). auto.
  - unfold onerror.
    destruct (disconnect_frame (set_error (Some ConnectionError) s))
      as (_ & H1 & H2 & _). auto.
Qed.

(** X9.  Once torn down, the component sends no captured audio, whatever
    capture callbacks, messages or mute toggles still arrive, until
    [connect] is called again. *)
Theorem nothing_sent_after_teardown (events : list Event) (s : State) :
  forallb (fun e => negb (isConnect e)) events = true ->
  sentFrames (replay events (disconnect s)) = sentFrames s.
Proof.
  intros Hall.
  destruct (disconnect_frame s) as (_ & Hsent & Hsp & _).
  rewrite <- Hsent. set (s0 := disconnect s) in *. clearbody s0. clear Hsent.
  revert s0 Hsp. induction events as [| e rest IH]; intros s0 Hsp.
  - reflexivity.
  - cbn [forallb] in Hall. apply andb_true_iff in Hall. destruct Hall as [He Hrest].
    apply negb_true_iff in He.
    destruct (silent_without_session e s0 He Hsp) as [Hsp' Hsent'].
    unfold replay in *. cbn [fold_left]. rewrite (IH Hrest _ Hsp'). exact Hsent'.
Qed.

Lemma nothing_sent_after_teardown_witness :
  let s := onopen (connect true initial) in
  let events := [ AudioProcess [1 # 2]; ToggleMute; Open;
                  Message 0 (audioChunk [0; 0]%Z); AudioProcess [0] ] in
  sentFrames (replay events (disconnect s)) = sentFrames s.
Proof.
  intros s events.
  apply (nothing_sent_after_teardown events s). reflexivity.
Defined.

(** X10.  While a capture callback created unmuted is installed and the
    session promise is set, every captured buffer is sent, once, in the
    order of capture. *)
Theorem frames_sent_in_capture_order (buffers : list (list Q)) (s : State) :
  scriptProcessor s = Some false -> sessionPromiseRef s = true ->
  sentFrames (replay (map AudioProcess buffers) s) =
    sentFrames s ++ map encode buffers.
Proof.
  revert s. induction buffers as [| d rest IH]; intros s Hp Hs.
  - cbn. now rewrite app_nil_r.
  - unfold replay in *. cbn [map fold_left handle].
    assert (onaudioprocess d s = set_sentFrames (sentFrames s ++ [encode d]) s) as ->
      by (unfold onaudioprocess; now rewrite Hp, Hs).
    rewrite IH; [ | exact Hp | exact Hs ].
    cbn. now rewrite <- app_assoc.
Qed.

Lemma frames_sent_in_capture_order_witness :
  let s := onopen (connect true initial) in
  let buffers := [ [0; 1 # 2]; []; [-1] ] in
  sentFrames (replay (map AudioProcess buffers) s) =
    sentFrames s ++ map encode buffers.
Proof.
  intros s buffers.
  apply (frames_sent_in_capture_order buffers s); reflexivity.
Defined.


End LifecycleFacts.

(** ** Messages that carry several things at once *)

Module MessageFacts.
Import AudioCodec App Session InvariantFacts.

(** Only the turn-completion branch writes the transcript. *)
Lemma onmessage_messages (now : Q) (sc : ServerContent) (s : State) :
  messages (onmessage now (mkMessage (Some sc)) s) =
  messages (handleTurnComplete sc (handleTranscription sc s)).
Proof.
  unfold onmessage. cbn [serverContent].
  set (s2 := handleTurnComplete sc (handleTranscription sc s)). clearbody s2.
  destruct (handleAudio_cases now sc s2) as [Hnone | (b & bs & _ & _ & H)].
  - destruct (handleAudio now sc s2) as [s3 [|]]; cbn [fst] in Hnone; subst s3;
      [ | reflexivity ].
    destruct (handleInterrupted_cases sc s2) as [-> | (_ & H)]; [ reflexivity | ].
    cbv zeta in H. now destruct H as (_ & _ & _ & _ & _ & Hm & _).
  - cbv zeta in H. destruct H as (Hcont & _ & _ & _ & _ & _ & Hm & _).
    destruct (handleAudio now sc s2) as [s3 c]. cbn [fst snd] in *. subst c.
    rewrite <- Hm.
    destruct (handleInterrupted_cases sc s3) as [-> | (_ & H)]; [ reflexivity | ].
    cbv zeta in H. now destruct H as (_ & _ & _ & _ & _ & Hm' & _).
Qed.

Lemma handleTurnComplete_messages (sc : ServerContent) (s : State) :
  turnComplete sc = true ->
  messages (handleTurnComplete sc s) =
    messages s ++ utterance user (currentInputTranscriptionRef s)
               ++ utterance model (currentOutputTranscriptionRef s).
Proof.
  intros Htc. unfold handleTurnComplete. rewrite Htc. cbv zeta.
  rewrite !TranscriptFacts.truthy_trim. unfold utterance.
  destruct (has_text (currentInputTranscriptionRef s));
    destruct (has_text (currentOutputTranscriptionRef s));
    cbn; rewrite ?app_nil_r, <- ?app_assoc; reflexivity.
Qed.

(** X12.  A fragment that rides on the message that completes the turn is
    part of that turn: it is appended to its speaker's buffer before
    the Utterances are cut, whatever else the message carries. *)
Theorem fragment_on_turnComplete_joins_the_turn
  (now : Q) (fragment : jsstring) (it : option jsstring)
  (mt : option (list Part)) (intr : bool) (s : State) :
  messages (onmessage now
              (mkMessage (Some (mkServerContent (Some fragment) it true mt intr))) s) =
    messages s ++ utterance user (currentInputTranscriptionRef s)
               ++ utterance model (currentOutputTranscriptionRef s ++ fragment) /\
  messages (onmessage now
              (mkMessage (Some (mkServerContent None (Some fragment) true mt intr))) s) =
    messages s ++ utterance user (currentInputTranscriptionRef s ++ fragment)
               ++ utterance model (currentOutputTranscriptionRef s).
Proof.
  split; rewrite onmessage_messages, handleTurnComplete_messages by reflexivity;
    reflexivity.
Qed.

(** X13.  With no audio context, a message that carries audio returns early:
    nothing is scheduled and, even when the message also says
    [interrupted], nothing is stopped, the clock is not reset and the
    model buffer is not cleared by the interruption; the transcription
    and the turn completion of the message have been handled. *)
Theorem audio_without_context_returns_early
  (now : Q) (sc : ServerContent) (b : byte) (bs : list byte) (s : State) :
  audioContextRef s = false -> base64Audio sc = Some (b :: bs) ->
  let s' := onmessage now (mkMessage (Some sc)) s in
  s' = handleTurnComplete sc (handleTranscription sc s) /\
  sourcesRef s' = sourcesRef s /\ audioLog s' = audioLog s /\
  nextStartTimeRef s' = nextStartTimeRef s /\
  nextSourceId s' = nextSourceId s.
Proof.
  intros Hctx Hb. cbv zeta.
  destruct (handleTranscription_frame sc s) as (H1 & H2 & H3 & H4 & H5 & _).
  destruct (handleTurnComplete_frame sc (handleTranscription sc s))
    as (G1 & G2 & G3 & G4 & G5 & _).
  cbv zeta in *.
  assert (onmessage now (mkMessage (Some sc)) s =
          handleTurnComplete sc (handleTranscription sc s)) as ->.
  { unfold onmessage. cbn [serverContent]. unfold handleAudio.
    rewrite Hb. now replace (audioContextRef _) with false by congruence. }
  repeat split; congruence.
Qed.

Lemma audio_without_context_returns_early_witness :
  let s := set_currentOutputTranscriptionRef [72]%N
             (set_nextStartTimeRef 3 (set_sourcesRef [0%nat] initial)) in
  let sc := mkServerContent None None false
              (Some [mkPart (Some [0; 0]%Z)]) true in
  let s' := onmessage 1 (mkMessage (Some sc)) s in
  s' = handleTurnComplete sc (handleTranscription sc s) /\
  sourcesRef s' = sourcesRef s /\ audioLog s' = audioLog s /\
  nextStartTimeRef s' = nextStartTimeRef s /\
  nextSourceId s' = nextSourceId s.
Proof.
  intros s sc.
  apply (audio_without_context_returns_early 1 sc 0%Z [0%Z] s); reflexivity.
Defined.

(** X14.  A chunk that arrives in the same message as [interrupted] is
    started and cancelled at once: its source is stopped together with
    the ones in flight, nothing stays in flight and the clock is 0. *)
Theorem chunk_with_interrupted_is_cancelled
  (events : list Event) (now : Q) (sc : ServerContent)
  (b : byte) (bs : list byte) :
  let s := replay events initial in
  audioContextRef s = true -> base64Audio sc = Some (b :: bs) ->
  interrupted sc = true ->
  let s' := onmessage now (mkMessage (Some sc)) s in
  audioLog s' =
    audioLog s
      ++ Start (nextSourceId s) (Qmax (nextStartTimeRef s) now)
               (duration (decode (b :: bs)))
      :: map Stop (sourcesRef s ++ [nextSourceId s]) /\
  sourcesRef s' = [] /\
  nextStartTimeRef s' = 0.
Proof.
  cbv zeta. intros Hctx Hb Hint.
  assert (playbackSound (replay events initial)) as Hsound.
  { apply replay_preserves; [ apply playbackSound_handle | ].
    unfold playbackSound. cbn.
    refine (conj (NoDup_nil _)
              (conj _ (conj _ (conj (NoDup_nil _) (conj (NoDup_nil _) I)))));
      intros ? []. }
  set (s := replay events initial) in *. clearbody s.
  destruct (handleTranscription_frame sc s) as (H1 & H2 & H3 & H4 & H5 & _).
  destruct (handleTurnComplete_frame sc (handleTranscription sc s))
    as (G1 & G2 & G3 & G4 & G5 & _).
  cbv zeta in *. unfold onmessage. cbn [serverContent].
  set (s2 := handleTurnComplete sc (handleTranscription sc s)) in *.
  assert (sourcesRef s2 = sourcesRef s) as Es by congruence.
  assert (audioLog s2 = audioLog s) as El by congruence.
  assert (nextSourceId s2 = nextSourceId s) as En by congruence.
  assert (nextStartTimeRef s2 = nextStartTimeRef s) as Ec by congruence.
  assert (audioContextRef s2 = true) as Ex by congruence.
  clearbody s2. clear H1 H2 H3 H4 H5 G1 G2 G3 G4 G5.
  pose proof (fresh_source_not_in_flight s Hsound) as Hfresh.
  unfold handleAudio. rewrite Hb, Ex.
  unfold handleInterrupted. rewrite Hint. cbn.
  rewrite Es, El, En, Ec, Hfresh, <- app_assoc. cbn. auto.
Qed.

Lemma chunk_with_interrupted_is_cancelled_witness :
  let events := [ Connect true; Open; Message 0 (audioChunk [0; 0]%Z) ] in
  let sc := mkServerContent None None false
              (Some [mkPart (Some [0; 0; 0; 0]%Z)]) true in
  let s := replay events initial in
  let s' := onmessage 1 (mkMessage (Some sc)) s in
  audioLog s' =
    audioLog s
      ++ Start (nextSourceId s) (Qmax (nextStartTimeRef s) 1)
               (duration (decode [0; 0; 0; 0]%Z))
      :: map Stop (sourcesRef s ++ [nextSourceId s]) /\
  sourcesRef s' = [] /\
  nextStartTimeRef s' = 0.
Proof.
  intros events sc.
  apply (chunk_with_interrupted_is_cancelled events 1 sc 0%Z [0; 0; 0]%Z);
    reflexivity.
Defined.

End MessageFacts.

(** ** The visualizer's geometry *)

Module VisualizerFacts.
Import Visualizer.

Lemma sum_from (dataArray : list Byte.byte) (acc : N) :
  fold_left (fun a value => (a + Byte.to_N value)%N) dataArray acc =
  (acc + sum dataArray)%N.
Proof.
  unfold sum. revert acc. induction dataArray as [| v rest IH]; intros acc.
  - cbn. lia.
  - cbn [fold_left]. rewrite IH, (IH (0 + Byte.to_N v)%N). lia.
Qed.

Lemma sum_bound (dataArray : list Byte.byte) :
  (sum dataArray <= 255 * N.of_nat (length dataArray))%N.
Proof.
  induction dataArray as [| v rest IH].
  - cbn. lia.
  - unfold sum in *. cbn [fold_left length]. rewrite sum_from.
    pose proof (Byte.to_N_bounded v). unfold sum. lia.
Qed.

Lemma average_range (dataArray : list Byte.byte) :
  dataArray <> [] -> 0 <= average dataArray /\ average dataArray <= 255.
Proof.
  intros Hne. unfold average.
  assert (0 < length dataArray)%nat as Hlen
    by (destruct dataArray; [ congruence | cbn; lia ]).
  assert (0 < inject_Z (Z.of_nat (length dataArray))) as Hpos.
  { change 0 with (inject_Z 0). rewrite <- Zlt_Qlt. lia. }
  split.
  - apply Qle_shift_div_l; [ exact Hpos | ].
    rewrite Qmult_0_l. change 0 with (inject_Z 0). rewrite <- Zle_Qle. lia.
  - apply Qle_shift_div_r; [ exact Hpos | ].
    change 255 with (inject_Z 255). rewrite <- inject_Z_mult, <- Zle_Qle.
    pose proof (sum_bound dataArray). lia.
Qed.

(** X15.  The pulse never shrinks the orb and never grows it by half: for
    every non-empty frequency array the scale lies in [1, 3/2). *)
Theorem scale_between_1_and_3_halves (dataArray : list Byte.byte) :
  dataArray <> [] -> 1 <= scale dataArray /\ scale dataArray < 3 # 2.
Proof.
  intros Hne. destruct (average_range dataArray Hne) as [Hlo Hhi].
  unfold scale, Qdiv. change (/ 256) with (1 # 256).
  split; lra.
Qed.

Lemma scale_between_1_and_3_halves_witness :
  let dataArray := [ Byte.xff; Byte.x00; Byte.x80 ] in
  1 <= scale dataArray /\ scale dataArray < 3 # 2.
Proof.
  intros dataArray. apply (scale_between_1_and_3_halves dataArray). discriminate.
Defined.

Lemma bar_index_in_range (n i : nat) :
  (0 < n)%nat -> (i < barCount)%nat -> (i * step n < n)%nat.
Proof.
  unfold step, barCount. intros Hn Hi.
  pose proof (Nat.Div0.mul_div_le n 60) as H.
  destruct (Nat.eq_dec (n / 60) 0) as [-> | Hnz]; [ lia | nia ].
Qed.

Lemma bar_radii (dataArray : list Byte.byte) (value : Byte.byte) :
  dataArray <> [] ->
  let percent := inject_Z (Z.of_N (Byte.to_N value)) / 256 in
  let barHeight := radius * (1 # 2) * percent * scale dataArray in
  80 <= radius * scale dataArray /\
  0 <= barHeight /\
  radius * scale dataArray + barHeight < 180.
Proof.
  intros Hne. cbv zeta.
  destruct (scale_between_1_and_3_halves dataArray Hne) as [Hlo Hhi].
  set (k := scale dataArray) in *. clearbody k.
  pose proof (Byte.to_N_bounded value) as Hv.
  assert (0 <= inject_Z (Z.of_N (Byte.to_N value))) as Hp0
    by (change 0 with (inject_Z 0); rewrite <- Zle_Qle; lia).
  assert (inject_Z (Z.of_N (Byte.to_N value)) <= 255) as Hp1
    by (change 255 with (inject_Z 255); rewrite <- Zle_Qle; lia).
  set (v := inject_Z (Z.of_N (Byte.to_N value))) in *. clearbody v.
  unfold radius, Qdiv. change (/ 256) with (1 # 256).
  assert (0 <= v * k) as Hvk0 by nra.
  assert (v * k <= 255 * (3 # 2)) as Hvk1 by nra.
  repeat split; nra.
Qed.

(** X16.  Every frame stays on the canvas, and no bar reads outside the
    frequency array.  For every non-empty array: inactive, the core has
    radius 80 and there is no bar; active, the core radius is in
    [80, 120), there are 60 bars, each reads a bin inside the array and
    runs outward from a radius of at least 80 to one below 180, short
    of the 200 between the centre and the edge. *)
Theorem frame_stays_on_canvas (dataArray : list Byte.byte) :
  dataArray <> [] ->
  render (Some dataArray) false = Some (mkFrame (radius * 1) []) /\
  exists core drawn,
    render (Some dataArray) true = Some (mkFrame core drawn) /\
    80 <= core /\ core < 120 /\
    length drawn = 60%nat /\
    Forall (fun b =>
              exists inner outer,
                b = Some (inner, outer) /\
                80 <= inner /\ inner <= outer /\ outer < 180 /\
                outer < center) drawn.
Proof.
  intros Hne.
  destruct (scale_between_1_and_3_halves dataArray Hne) as [Hlo Hhi].
  assert (0 < length dataArray)%nat as Hlen
    by (destruct dataArray; [ congruence | cbn; lia ]).
  split; [ destruct dataArray; [ congruence | reflexivity ] | ].
  exists (radius * scale dataArray), (map (bar dataArray) (seq 0 barCount)).
  split; [ destruct dataArray; [ congruence | reflexivity ] | ].
  unfold radius at 1 2.
  split; [ lra | split; [ lra | split ] ].
  - now rewrite length_map, length_seq.
  - apply Forall_forall. intros x Hx. apply in_map_iff in Hx.
    destruct Hx as (i & <- & Hi). apply in_seq in Hi.
    pose proof (bar_index_in_range (length dataArray) i Hlen ltac:(lia)) as Hidx.
    unfold bar.
    destruct (nth_error dataArray (i * step (length dataArray))) as [value |] eqn:E.
    + destruct (bar_radii dataArray value Hne) as (H1 & H2 & H3). cbv zeta in *.
      eexists; eexists. split; [ reflexivity | ].
      assert (center == 200) as -> by reflexivity.
      repeat split; lra.
    + apply nth_error_None in E. lia.
Qed.

Lemma frame_stays_on_canvas_witness :
  let dataArray := repeat Byte.xff 128 in
  render (Some dataArray) false = Some (mkFrame (radius * 1) []) /\
  exists core drawn,
    render (Some dataArray) true = Some (mkFrame core drawn) /\
    80 <= core /\ core < 120 /\
    length drawn = 60%nat /\
    Forall (fun b =>
              exists inner outer,
                b = Some (inner, outer) /\
                80 <= inner /\ inner <= outer /\ outer < 180 /\
                outer < center) drawn.
Proof.
  intros dataArray. apply (frame_stays_on_canvas dataArray).
  unfold dataArray. cbn. discriminate.
Defined.

End VisualizerFacts.

(** ** Conversation history *)

Module HistoryFacts.
Import App Session History.

Lemma sameMode_eq (a b : PersonaMode) : sameMode a b = true <-> a = b.
Proof. destruct a, b; cbn; split; congruence. Qed.

Lemma sameMode_refl (a : PersonaMode) : sameMode a a = true.
Proof. now destruct a. Qed.

Lemma selectMode_spec (selectedMode : PersonaMode) (p : Page) :
  mode (selectMode selectedMode p) = Some selectedMode /\
  transcript (selectMode selectedMode p) =
    match localStorage p selectedMode with
    | Some (Json saved) => saved
    | _ => []
    end /\
  forall key, localStorage (selectMode selectedMode p) key = localStorage p key.
Proof.
  unfold selectMode, afterModeChange, handleModeSelect.
  unfold saveHistory at 2. unfold transcript. cbn [mode session localStorage].
  cbn [messages set_messages length Nat.ltb Nat.leb].
  unfold loadHistory. cbn [mode session localStorage].
  unfold saveHistory, transcript. cbn [mode session localStorage].
  destruct (localStorage p selectedMode) as [[saved |] |] eqn:E;
    cbn [messages set_messages set_streamingUserText set_streamingModelText].
  - destruct saved as [| a rest]; cbn.
    + repeat split.
    + repeat split. intros key. unfold setItem.
      destruct (sameMode selectedMode key) eqn:Ek; [ | reflexivity ].
      apply sameMode_eq in Ek. subst key. now rewrite E.
  - cbn. repeat split.
  - cbn. repeat split.
Qed.

(** X17.  Choosing a persona shows what is stored for it, or nothing when the
    entry is absent or unreadable, and writes nothing new: every entry
    of the storage reads as before, whatever the page held. *)
Theorem selecting_a_persona_restores_and_preserves
  (selectedMode : PersonaMode) (p : Page) :
  let p' := selectMode selectedMode p in
  mode p' = Some selectedMode /\
  transcript p' =
    match localStorage p selectedMode with
    | Some (Json saved) => saved
    | _ => []
    end /\
  forall key, localStorage p' key = localStorage p key.
Proof. exact (selectMode_spec selectedMode p). Qed.

(** X18.  A completed turn is written under the current persona's key and
    nowhere else, and the transcript it leaves is what comes back after
    switching away and choosing the same persona again. *)
Theorem history_survives_switching_persona
  (now : Q) (message : LiveServerMessage) (m : PersonaMode) (p : Page) :
  mode p = Some m ->
  let p1 := receive now message p in
  transcript p1 <> transcript p ->
  localStorage p1 m = Some (Json (transcript p1)) /\
  (forall key, key <> m -> localStorage p1 key = localStorage p key) /\
  transcript (selectMode m (switchPersona p1)) = transcript p1.
Proof.
  intros Hm. cbv zeta. intros Hgrew.
  destruct (InvariantFacts.transcript_grows_by_handle (Message now message) (session p))
    as (added & Hadd & _ & _).
  cbn [handle] in Hadd.
  assert (localStorage (receive now message p) m =
            Some (Json (transcript (receive now message p))) /\
          (forall key, key <> m ->
             localStorage (receive now message p) key = localStorage p key)) as [H1 H2].
  { revert Hgrew. unfold receive, transcript. cbn [session mode localStorage].
    destruct (Nat.eqb_spec (length (messages (onmessage now message (session p))))
                (length (messages (session p)))) as [Heq | Hne].
    - intros Hgrew. exfalso. apply Hgrew. cbn [session].
      rewrite Hadd in *. rewrite length_app in Heq.
      destruct added; [ now rewrite app_nil_r | cbn in Heq; lia ].
    - intros _. unfold saveHistory, transcript. cbn [mode session localStorage].
      rewrite Hm.
      assert ((0 <? length (messages (onmessage now message (session p))))%nat
              = true) as ->.
      { apply Nat.ltb_lt. rewrite Hadd, length_app in *. lia. }
      cbn [localStorage]. unfold setItem. rewrite sameMode_refl.
      split; [ reflexivity | ].
      intros key Hkey. destruct (sameMode m key) eqn:Ek; [ | reflexivity ].
      apply sameMode_eq in Ek. congruence. }
  refine (conj H1 (conj H2 _)).
  destruct (selectMode_spec m (switchPersona (receive now message p)))
    as (_ & Hsel & _).
  rewrite Hsel. unfold switchPersona, handleSwitchPersona. cbn [localStorage].
  now rewrite H1.
Qed.

Lemma history_survives_switching_persona_witness :
  let p := mkPage (Some GIRLFRIEND)
                  (set_currentOutputTranscriptionRef [72; 105]%N initial)
                  (fun _ => None) in
  let p1 := receive 0 turnCompleteEvent p in
  localStorage p1 GIRLFRIEND = Some (Json (transcript p1)) /\
  (forall key, key <> GIRLFRIEND -> localStorage p1 key = localStorage p key) /\
  transcript (selectMode GIRLFRIEND (switchPersona p1)) = transcript p1.
Proof.
  intros p.
  apply (history_survives_switching_persona 0 turnCompleteEvent GIRLFRIEND p).
  - reflexivity.
  - vm_compute. discriminate.
Defined.

(** X19.  Clearing the history, once confirmed, empties the transcript and
    removes the current persona's entry, and the save effect that
    follows does not write it back; the other persona's entry is not
    touched; choosing the persona again shows nothing.  Declined, it
    changes nothing. *)
Theorem clearing_history_removes_the_entry (m : PersonaMode) (p : Page) :
  mode p = Some m ->
  let p' := clear true p in
  transcript p' = [] /\
  localStorage p' m = None /\
  hasHistory m p' = Some false /\
  (forall key, key <> m -> localStorage p' key = localStorage p key) /\
  transcript (selectMode m (switchPersona p')) = [] /\
  clear false p = p.
Proof.
  intros Hm. cbv zeta.
  assert (clear true p =
          mkPage (mode p) (set_messages [] (session p))
                 (removeItem m (localStorage p))) as E.
  { unfold clear, clearHistory. rewrite Hm.
    unfold saveHistory, transcript. cbn [mode session localStorage].
    reflexivity. }
  assert (removeItem m (localStorage p) m = None) as Hnone
    by (unfold removeItem; now rewrite sameMode_refl).
  destruct (selectMode_spec m (switchPersona (clear true p))) as (_ & Hsel & _).
  rewrite Hsel, E. unfold hasHistory, switchPersona, handleSwitchPersona, transcript.
  cbn [mode session localStorage messages set_messages]. rewrite Hnone.
  repeat split.
  - intros key Hkey. unfold removeItem.
    destruct (sameMode m key) eqn:Ek; [ | reflexivity ].
    apply sameMode_eq in Ek. congruence.
  - unfold clear, clearHistory. now rewrite Hm.
Qed.

Lemma clearing_history_removes_the_entry_witness :
  let p := mkPage (Some INTERVIEWER)
                  (set_messages [ mkAudioMessage user (Some [104; 105]%N) ] initial)
                  (fun _ => Some (Json [ mkAudioMessage user (Some [104; 105]%N) ])) in
  let p' := clear true p in
  transcript p' = [] /\
  localStorage p' INTERVIEWER = None /\
  hasHistory INTERVIEWER p' = Some false /\
  (forall key, key <> INTERVIEWER -> localStorage p' key = localStorage p key) /\
  transcript (selectMode INTERVIEWER (switchPersona p')) = [] /\
  clear false p = p.
Proof.
  intros p.
  apply (clearing_history_removes_the_entry INTERVIEWER p). reflexivity.
Defined.

(** X20.  An entry that is not JSON makes [hasHistory] throw, while choosing
    that persona loads an empty transcript instead; the entry itself is
    left as it is, so [hasHistory] keeps throwing until a completed
    turn overwrites it. *)
Theorem unreadable_entry_throws_in_hasHistory_only
  (now : Q) (message : LiveServerMessage) (m : PersonaMode) (p : Page) :
  localStorage p m = Some Unparseable ->
  hasHistory m p = None /\
  let p' := selectMode m p in
  transcript p' = [] /\
  localStorage p' m = Some Unparseable /\
  hasHistory m p' = None /\
  let p2 := receive now message p' in
  (transcript p2 <> [] ->
   localStorage p2 m = Some (Json (transcript p2)) /\
   hasHistory m p2 = Some true).
Proof.
  intros Hbad. cbv zeta.
  destruct (selectMode_spec m p) as (Hmode & Htr & Hst).
  rewrite Hbad in Htr.
  assert (hasHistory m p = None) as H0 by (unfold hasHistory; now rewrite Hbad).
  assert (hasHistory m (selectMode m p) = None) as H1
    by (unfold hasHistory; now rewrite Hst, Hbad).
  refine (conj H0 (conj Htr (conj _ (conj H1 _)))).
  - now rewrite Hst.
  - intros Hgrew.
    assert (transcript (receive now message (selectMode m p))
            <> transcript (selectMode m p)) as Hneq by (rewrite Htr; exact Hgrew).
    set (p' := selectMode m p) in *.
    assert (localStorage (receive now message p') m =
            Some (Json (transcript (receive now message p')))) as Hsaved.
    { clearbody p'. revert Hneq. unfold receive, transcript.
      cbn [session mode localStorage].
      destruct (InvariantFacts.transcript_grows_by_handle
                  (Message now message) (session p')) as (added & Hadd & _ & _).
      cbn [handle] in Hadd.
      destruct (Nat.eqb_spec (length (messages (onmessage now message (session p'))))
                  (length (messages (session p')))) as [Heq | Hne].
      - intros Hneq. exfalso. apply Hneq. cbn [session].
        rewrite Hadd in *. rewrite length_app in Heq.
        destruct added; [ now rewrite app_nil_r | cbn in Heq; lia ].
      - intros _. unfold saveHistory, transcript. cbn [mode session localStorage].
        rewrite Hmode.
        assert ((0 <? length (messages (onmessage now message (session p'))))%nat
                = true) as ->.
        { apply Nat.ltb_lt. rewrite Hadd, length_app in *. lia. }
        cbn [localStorage]. unfold setItem. now rewrite sameMode_refl. }
    split; [ exact Hsaved | ].
    unfold hasHistory. rewrite Hsaved.
    destruct (transcript (receive now message p')); [ congruence | reflexivity ].
Qed.

Lemma unreadable_entry_throws_in_hasHistory_only_witness :
  let p := mkPage None initial (fun _ => Some Unparseable) in
  let message := mkMessage (Some (mkServerContent (Some [72; 105]%N) None true
                                                  None false)) in
  let p' := selectMode GIRLFRIEND p in
  let p2 := receive 0 message p' in
  hasHistory GIRLFRIEND p = None /\
  transcript p' = [] /\
  localStorage p' GIRLFRIEND = Some Unparseable /\
  hasHistory GIRLFRIEND p' = None /\
  localStorage p2 GIRLFRIEND = Some (Json (transcript p2)) /\
  hasHistory GIRLFRIEND p2 = Some true.
Proof.
  intros p message p' p2.
  destruct (unreadable_entry_throws_in_hasHistory_only 0 message GIRLFRIEND p eq_refl)
    as (H0 & H1 & H2 & H3 & H4).
  refine (conj H0 (conj H1 (conj H2 (conj H3 _)))).
  apply H4. vm_compute. discriminate.
Defined.

End HistoryFacts.
